(** * flac2m4a: the batch orchestration of [src/index.js], verified

    The program scans a directory for [.flac] files (or takes one base
    name), checks that the cover image and the lyrics file are there and
    directs ffmpeg to mux the three into an [.m4a] container.

    The development is a shallow embedding.  JavaScript strings are
    [string]s, arrays are [list]s, [undefined] is [None].  The code talks to
    the file system, to the console and to child processes; these effects
    are explicit: a computation takes the file system it starts in and
    gives the events it emitted, the file system it left and the way it
    completed (returned, threw, or called [process.exit]).  A promise that
    is awaited at once behaves as a call that may throw, so a rejected
    promise is the [Thrown] completion of the function that returned it. *)

From Stdlib Require Import List String Ascii ZArith Bool Lia.
From Stdlib Require Import Numbers.DecimalString.
Import ListNotations.

Open Scope list_scope.
Open Scope string_scope.

(** ** Strings as the code uses them *)

Module Str.

(** [s.slice(n)] *)
Fixpoint drop (n : nat) (s : string) : string :=
  match n, s with
  | O, _ => s
  | S _, EmptyString => EmptyString
  | S n', String _ s' => drop n' s'
  end.

(** [s.slice(0, n)] *)
Fixpoint take (n : nat) (s : string) : string :=
  match n, s with
  | O, _ => EmptyString
  | S _, EmptyString => EmptyString
  | S n', String c s' => String c (take n' s')
  end.

(** [s.slice(start, stop)] for [0 <= start], [0 <= stop]. *)
Definition slice (s : string) (start stop : nat) : string :=
  take (stop - start) (drop start s).

Definition isSlash (c : ascii) : bool := Ascii.eqb c "/"%char.
Definition isDot (c : ascii) : bool := Ascii.eqb c "."%char.

(** [s.split('/')]: never empty, [""] splits to [[""]]. *)
Fixpoint split (s : string) : list string :=
  match s with
  | EmptyString => [EmptyString]
  | String c s' =>
      if isSlash c then EmptyString :: split s'
      else match split s' with
           | h :: t => String c h :: t
           | [] => [String c EmptyString]
           end
  end.

(** [segs.join('/')] *)
Fixpoint joinSlash (segs : list string) : string :=
  match segs with
  | [] => EmptyString
  | [x] => x
  | x :: rest => x ++ "/" ++ joinSlash rest
  end.

Definition startsWithSlash (s : string) : bool :=
  match s with
  | String c _ => isSlash c
  | EmptyString => false
  end.

Fixpoint endsWithSlash (s : string) : bool :=
  match s with
  | EmptyString => false
  | String c EmptyString => isSlash c
  | String _ s' => endsWithSlash s'
  end.

(** Index of the last ['.'] of [s]. *)
Fixpoint lastDot (s : string) : option nat :=
  match s with
  | EmptyString => None
  | String c s' =>
      match lastDot s' with
      | Some i => Some (S i)
      | None => if isDot c then Some O else None
      end
  end.

Definition lowerChar (c : ascii) : ascii :=
  let n := nat_of_ascii c in
  if (65 <=? n)%nat && (n <=? 90)%nat then ascii_of_nat (n + 32) else c.

(** [s.toLowerCase()].  Strings are sequences of UTF-8 bytes here and only
    [A]-[Z] are mapped.  The code compares the result with ['.flac'] only,
    and no character outside ASCII lowercases to one of [f], [l], [a],
    [c] or [.], so the comparison comes out as in JavaScript. *)
Fixpoint toLowerCase (s : string) : string :=
  match s with
  | EmptyString => EmptyString
  | String c s' => String (lowerChar c) (toLowerCase s')
  end.

(** [`${code}`] for an exit code: a number, or [null] when the child was
    ended by a signal. *)
Definition ofCode (code : option Z) : string :=
  match code with
  | Some n => NilZero.string_of_int (Z.to_int n)
  | None => "null"
  end.

Definition quote : string := String (ascii_of_nat 34) EmptyString.
Definition newline : string := String (ascii_of_nat 10) EmptyString.

End Str.

(** ** Node's [path] module, POSIX flavour

    [path.join], [path.basename] and [path.extname] belong to Node, not to
    this repository.  They are modelled on path segments, after Node's
    documentation of [path.posix]. *)

Module Path.
Import Str.

(** The last portion of a path: its last non-empty segment (trailing
    separators are ignored), [""] when there is none. *)
Definition lastPortion (p : string) : string :=
  last (filter (fun seg => negb (seg =? "")) (split p)) "".

(** One step of normalisation; [stack] holds the segments kept so far,
    innermost first. *)
Definition normStep (allowAboveRoot : bool) (stack : list string) (seg : string)
  : list string :=
  if (seg =? "") || (seg =? ".") then stack
  else if seg =? ".." then
    match stack with
    | top :: below =>
        if top =? ".." then (if allowAboveRoot then seg :: stack else stack)
        else below
    | [] => if allowAboveRoot then [seg] else []
    end
  else seg :: stack.

Definition normalizeSegments (allowAboveRoot : bool) (segs : list string)
  : list string :=
  rev (fold_left (normStep allowAboveRoot) segs []).

(** [path.normalize(p)] *)
Definition normalize (p : string) : string :=
  if p =? "" then "."
  else
    let isAbsolute := startsWithSlash p in
    let trailingSeparator := endsWithSlash p in
    let body := joinSlash (normalizeSegments (negb isAbsolute) (split p)) in
    if body =? "" then
      (if isAbsolute then "/" else if trailingSeparator then "./" else ".")
    else
      (if isAbsolute then "/" else "") ++ body
        ++ (if trailingSeparator then "/" else "").

(** [path.join(a, b)]: the non-empty arguments joined by ['/'], then
    normalised. *)
Definition join (a b : string) : string :=
  let joined :=
    if a =? "" then b
    else if b =? "" then a
    else a ++ "/" ++ b in
  normalize joined.

(** [path.extname(p)]: from the last ['.'] of the last portion to its end;
    [""] when there is no ['.'], when the only ['.'] opens the portion,
    and for [".."]. *)
Definition extname (p : string) : string :=
  let b := lastPortion p in
  match lastDot b with
  | None => ""
  | Some O => ""
  | Some i => if b =? ".." then "" else slice b i (length b)
  end.

(** [b] without the suffix [ext], when [b] ends with [ext]. *)
Definition stripSuffix (ext b : string) : option string :=
  let n := length b - length ext in
  if (length ext <=? length b)%nat && (drop n b =? ext)
  then Some (take n b) else None.

(** [path.basename(p)] and [path.basename(p, ext)]: the last portion, less
    [ext] when it ends with [ext] and is more than [ext].  The code passes
    as [ext] the [path.extname] of the same directory entry, or nothing. *)
Definition basename (p : string) (suffix : option string) : string :=
  let b := lastPortion p in
  match suffix with
  | None => b
  | Some ext =>
      if ext =? "" then b
      else if ext =? p then ""
      else match stripSuffix ext b with
           | Some stem => if stem =? "" then b else stem
           | None => b
           end
  end.

End Path.

(** ** The world the program runs in *)

(** Exceptions and rejection values.  [NewError m] is [new Error(m)], made
    by the program; [SystemError c] is an error raised by the runtime, with
    its code ([ENOENT], [EACCES], ...). *)
Inductive JsError : Type :=
| NewError (message : string)
| SystemError (code : string).

Inductive Kind : Type := RegularFile | Directory.

(** What the code can ask of the file system: what is at a path, and the
    names in a directory.  [readdir] gives the names in the order of the
    directory listing, or the error [fs.readdirSync] throws. *)
Record FileSystem : Type := mkFileSystem {
  stat : string -> option Kind;
  readdir : string -> JsError + list string
}.

(** What a spawned child emits.  A child that was started emits ['close']
    with its exit code ([None] is [null]: ended by a signal).  A child
    that could not be started emits ['error'] with the error of the
    launcher and then ['close'] as well, with the negative error number as
    the code ([-2] for [ENOENT], [-13] for [EACCES]).  The handlers of
    [runFfmpeg] run for every event in this order. *)
Inductive ChildEvent : Type :=
| Close (code : option Z)
| SpawnError (err : JsError) (errno : positive).

(** What a handler asks of the promise of [runFfmpeg]: [resolve()] or
    [reject(e)]. *)
Inductive Settle : Type :=
| Resolve
| Reject (e : JsError).

(** What the machine supplies: the path exported by [ffmpeg-static], the
    working directory, the behaviour of a spawned command (it may change
    the file system), and the behaviour of the install script of
    [ffmpeg-static] ([Some err]: locating or running it threw [err]). *)
Record Host : Type := mkHost {
  ffmpegPath : string;
  cwd : string;
  child : FileSystem -> string -> list string -> ChildEvent * FileSystem;
  installer : FileSystem -> option JsError * FileSystem
}.

(** [argv] as yargs leaves it: the optional positional and [--lang]. *)
Record Argv : Type := mkArgv {
  basename : option string;
  lang : string
}.

(** JavaScript's truthiness of a string-or-undefined value. *)
Definition truthy (v : option string) : bool :=
  match v with
  | None => false
  | Some s => negb (s =? "")
  end.

(** [`${v}`] *)
Definition text (v : option string) : string :=
  match v with
  | None => "undefined"
  | Some s => s
  end.

(** *** What the program lets the world see *)

(** One constructor per console call of the source; the arguments are the
    values interpolated into the message. *)
Inductive Message : Type :=
| MsgBinaryNotFound
| MsgMayTakeAMoment
| MsgDownloaded
| MsgDownloadFailed (error : JsError)
| MsgCheckNetwork
| MsgManualMode (basename : string)
| MsgAutomaticMode (currentDir : string)
| MsgDone
| MsgNoFlacFiles
| MsgProcessing (file : string)
| MsgSkipping (baseName : string)
| MsgCreated (file : string)
| MsgExited (code : option Z) (file : string)
| MsgFailedToStart (file : string) (err : JsError).

Inductive Event : Type :=
| ConsoleLog (m : Message)
| ConsoleError (m : Message)
| Spawn (file : string) (args : list string)
| InstallScript.

(** *** Computations *)

Inductive Completion (A : Type) : Type :=
| Normal (a : A)
| Thrown (e : JsError)
| Exited (code : Z).
Arguments Normal {A} a.
Arguments Thrown {A} e.
Arguments Exited {A} code.

Record Run (A : Type) : Type := mkRun {
  events : list Event;
  after : FileSystem;
  completion : Completion A
}.
Arguments mkRun {A} events after completion.
Arguments events {A} r.
Arguments after {A} r.
Arguments completion {A} r.

Definition M (A : Type) : Type := FileSystem -> Run A.

Definition ret {A : Type} (a : A) : M A :=
  fun fs => mkRun [] fs (Normal a).

Definition bind {A B : Type} (m : M A) (k : A -> M B) : M B :=
  fun fs =>
    let r := m fs in
    match completion r with
    | Normal a =>
        let r' := k a (after r) in
        mkRun (events r ++ events r')%list (after r') (completion r')
    | Thrown e => mkRun (events r) (after r) (Thrown e)
    | Exited code => mkRun (events r) (after r) (Exited code)
    end.

Notation "x <- m ;; k" := (bind m (fun x => k))
  (at level 61, m at next level, right associativity).
Notation "m ;; k" := (bind m (fun _ => k))
  (at level 61, right associativity).

Definition throw {A : Type} (e : JsError) : M A :=
  fun fs => mkRun [] fs (Thrown e).

(** [try { m } catch (error) { handler error }] *)
Definition tryCatch {A : Type} (m : M A) (handler : JsError -> M A) : M A :=
  fun fs =>
    let r := m fs in
    match completion r with
    | Thrown e =>
        let r' := handler e (after r) in
        mkRun (events r ++ events r')%list (after r') (completion r')
    | _ => r
    end.

Definition emit (e : Event) : M unit :=
  fun fs => mkRun [e] fs (Normal tt).

Definition console_log (m : Message) : M unit := emit (ConsoleLog m).
Definition console_error (m : Message) : M unit := emit (ConsoleError m).

(** [process.exit(code)] *)
Definition process_exit {A : Type} (code : Z) : M A :=
  fun fs => mkRun [] fs (Exited code).

(** [fs.existsSync(p)]: true for whatever is at [p], a directory as well
    as a file; it never throws. *)
Definition existsSync (p : string) : M bool :=
  fun fs =>
    mkRun [] fs (Normal (match stat fs p with Some _ => true | None => false end)).

(** [fs.readdirSync(dir)] *)
Definition readdirSync (dir : string) : M (list string) :=
  fun fs =>
    match readdir fs dir with
    | inr names => mkRun [] fs (Normal names)
    | inl err => mkRun [] fs (Thrown err)
    end.

(** [spawn(file, args)] and what the child then emits. *)
Definition spawn (h : Host) (file : string) (args : list string) : M ChildEvent :=
  fun fs =>
    let (ev, fs') := child h fs file args in
    mkRun [Spawn file args] fs' (Normal ev).

(** The body of the [try] of [ensureFfmpegIsAvailable] up to its console
    call: the attempt to locate the package with [require.resolve] and to
    run its install script with [execFileSync]. *)
Definition runInstallScript (h : Host) : M unit :=
  fun fs =>
    let (failure, fs') := installer h fs in
    mkRun [InstallScript] fs'
      (match failure with Some err => Thrown err | None => Normal tt end).

(** [await] of a promise that the first handler to run has settled by [s];
    a settled promise ignores what later handlers ask of it. *)
Definition await (s : Settle) : M unit :=
  match s with
  | Resolve => ret tt
  | Reject e => throw e
  end.

(** [for (const x of xs) { await body(x) }] *)
Fixpoint forOf {A : Type} (xs : list A) (body : A -> M unit) : M unit :=
  match xs with
  | [] => ret tt
  | x :: rest => body x ;; forOf rest body
  end.

(** ** [src/index.js] *)

Module Index.

Section Program.

Variable h : Host.

Definition ensureFfmpegIsAvailable : M bool :=
  found <- existsSync (ffmpegPath h) ;;
  if found then ret true
  else
    console_log MsgBinaryNotFound ;;
    console_log MsgMayTakeAMoment ;;
    tryCatch
      (runInstallScript h ;;
       console_log MsgDownloaded ;;
       ret true)
      (fun error =>
         console_error (MsgDownloadFailed error) ;;
         console_error MsgCheckNetwork ;;
         ret false).

(** The array [args] of [runFfmpeg]. *)
Definition args (flacFile jpgFile lycFile outputFile lang : string)
  : list string :=
  [ "-i"; flacFile;
    "-i"; jpgFile;
    "-i"; lycFile;
    "-c:a"; "alac";
    "-c:v"; "copy";
    "-c:s"; "mov_text";
    "-map"; "0:a";
    "-map"; "1:v";
    "-map"; "2:s";
    "-metadata:s:s:0"; "language=" ++ lang;
    "-disposition:v"; "attached_pic";
    "-y";
    outputFile ].

(** The handler of ['close']: what it prints and what it asks of the
    promise. *)
Definition onClose (flacFile outputFile : string) (code : option Z) : M Settle :=
  match code with
  | Some 0%Z =>
      console_log (MsgCreated (Path.basename outputFile None)) ;;
      ret Resolve
  | _ =>
      console_error (MsgExited code (Path.basename flacFile None)) ;;
      ret (Reject (NewError "FFmpeg error"))
  end.

(** The handler of ['error']. *)
Definition onError (flacFile : string) (err : JsError) : M Settle :=
  console_error (MsgFailedToStart (Path.basename flacFile None) err) ;;
  ret (Reject err).

(** The two handlers are independent.  The first one to run settles the
    promise; when the child could not be started the handler of ['close']
    runs behind the one of ['error'] and prints too, and its [reject] is
    ignored. *)
Definition runFfmpeg (flacFile jpgFile lycFile outputFile lang : string)
  : M unit :=
  ffmpeg <- spawn h (ffmpegPath h)
              (args flacFile jpgFile lycFile outputFile lang) ;;
  match ffmpeg with
  | Close code =>
      settled <- onClose flacFile outputFile code ;;
      await settled
  | SpawnError err errno =>
      settled <- onError flacFile err ;;
      onClose flacFile outputFile (Some (Z.neg errno)) ;;
      await settled
  end.

Definition processSingleFile (baseName lang dir : string) : M unit :=
  let flacFile := Path.join dir (baseName ++ ".flac") in
  let jpgFile := Path.join dir (baseName ++ ".jpg") in
  let lycFile := Path.join dir (baseName ++ ".lrc") in
  let outputFile := Path.join dir (baseName ++ ".m4a") in
  hasFlac <- existsSync flacFile ;;
  hasJpg <- (if hasFlac then existsSync jpgFile else ret false) ;;
  hasLyc <- (if hasJpg then existsSync lycFile else ret false) ;;
  if hasLyc then
    console_log (MsgProcessing (Path.basename flacFile None)) ;;
    runFfmpeg flacFile jpgFile lycFile outputFile lang
  else
    console_log (MsgSkipping baseName).

(** The predicate of [allFiles.filter]. *)
Definition isFlac (file : string) : bool :=
  Str.toLowerCase (Path.extname file) =? ".flac".

Definition processDirectory (lang dir : string) : M unit :=
  allFiles <- readdirSync dir ;;
  let flacFiles := filter isFlac allFiles in
  if (List.length flacFiles =? 0)%nat then
    console_log MsgNoFlacFiles
  else
    forOf flacFiles (fun flacFile =>
      let baseName := Path.basename flacFile (Some (Path.extname flacFile)) in
      processSingleFile baseName lang dir).

Definition main (argv : Argv) : M unit :=
  isFfmpegReady <- ensureFfmpegIsAvailable ;;
  (if negb isFfmpegReady then process_exit 1%Z else ret tt) ;;
  let currentDir := cwd h in
  (if truthy (basename argv) then
     console_log (MsgManualMode (text (basename argv))) ;;
     processSingleFile (text (basename argv)) (lang argv) currentDir
   else
     console_log (MsgAutomaticMode currentDir) ;;
     processDirectory (lang argv) currentDir) ;;
  console_log MsgDone.

End Program.

(** The first argument of each console call ([chalk] only colours it). *)
Definition render (m : Message) : string :=
  match m with
  | MsgBinaryNotFound => "FFmpeg binary not found. Attempting to download it now..."
  | MsgMayTakeAMoment => "This may take a moment."
  | MsgDownloaded => "FFmpeg downloaded successfully."
  | MsgDownloadFailed _ => "Failed to download FFmpeg automatically."
  | MsgCheckNetwork =>
      "Please check your network connection or try installing FFmpeg manually."
  | MsgManualMode b =>
      Str.newline ++ "Manual mode: Processing files for base name "
        ++ Str.quote ++ b ++ Str.quote
  | MsgAutomaticMode d =>
      Str.newline ++ "Automatic mode: Scanning for files in: " ++ d
  | MsgDone => Str.newline ++ "Done."
  | MsgNoFlacFiles => "No .flac files found in this directory."
  | MsgProcessing f => "Processing: " ++ f
  | MsgSkipping b =>
      "Skipping: Could not find all required files for base name "
        ++ Str.quote ++ b ++ Str.quote
  | MsgCreated f => "Successfully created: " ++ f
  | MsgExited code f =>
      "FFmpeg exited with code " ++ Str.ofCode code ++ " for " ++ f
  | MsgFailedToStart f _ => "Failed to start FFmpeg for " ++ f
  end.

End Index.

(** ** [src/unnamed/part_000], the other variant of the script *)

Module Part000.

Section Program.

Variable h : Host.

Definition args (flacFile jpgFile lycFile outputFile lang : string)
  : list string :=
  [ "-i"; flacFile;
    "-i"; jpgFile;
    "-i"; lycFile;
    "-c:a"; "alac";
    "-c:v"; "copy";
    "-c:s"; "mov_text";
    "-map"; "0:a";
    "-map"; "1:v";
    "-map"; "2:s";
    "-metadata:s:s:0"; "language=" ++ lang;
    "-disposition:v"; "attached_pic";
    "-y";
    outputFile ].

(** The handler of ['close']: what it prints and what it asks of the
    promise. *)
Definition onClose (flacFile outputFile : string) (code : option Z) : M Settle :=
  match code with
  | Some 0%Z =>
      console_log (MsgCreated (Path.basename outputFile None)) ;;
      ret Resolve
  | _ =>
      console_error (MsgExited code (Path.basename flacFile None)) ;;
      ret (Reject (NewError "FFmpeg error"))
  end.

(** The handler of ['error']. *)
Definition onError (flacFile : string) (err : JsError) : M Settle :=
  console_error (MsgFailedToStart (Path.basename flacFile None) err) ;;
  ret (Reject err).

(** The two handlers are independent.  The first one to run settles the
    promise; when the child could not be started the handler of ['close']
    runs behind the one of ['error'] and prints too, and its [reject] is
    ignored. *)
Definition runFfmpeg (flacFile jpgFile lycFile outputFile lang : string)
  : M unit :=
  ffmpeg <- spawn h (ffmpegPath h)
              (args flacFile jpgFile lycFile outputFile lang) ;;
  match ffmpeg with
  | Close code =>
      settled <- onClose flacFile outputFile code ;;
      await settled
  | SpawnError err errno =>
      settled <- onError flacFile err ;;
      onClose flacFile outputFile (Some (Z.neg errno)) ;;
      await settled
  end.

Definition processSingleFile (baseName lang dir : string) : M unit :=
  let flacFile := Path.join dir (baseName ++ ".flac") in
  let jpgFile := Path.join dir (baseName ++ ".jpg") in
  let lycFile := Path.join dir (baseName ++ ".lyc") in
  let outputFile := Path.join dir (baseName ++ ".m4a") in
  hasFlac <- existsSync flacFile ;;
  hasJpg <- (if hasFlac then existsSync jpgFile else ret false) ;;
  hasLyc <- (if hasJpg then existsSync lycFile else ret false) ;;
  if hasLyc then
    console_log (MsgProcessing (Path.basename flacFile None)) ;;
    runFfmpeg flacFile jpgFile lycFile outputFile lang
  else
    console_log (MsgSkipping baseName).

(** The predicate of [allFiles.filter]. *)
Definition isFlac (file : string) : bool :=
  Str.toLowerCase (Path.extname file) =? ".flac".

Definition processDirectory (lang dir : string) : M unit :=
  allFiles <- readdirSync dir ;;
  let flacFiles := filter isFlac allFiles in
  if (List.length flacFiles =? 0)%nat then
    console_log MsgNoFlacFiles
  else
    forOf flacFiles (fun flacFile =>
      let baseName := Path.basename flacFile (Some (Path.extname flacFile)) in
      processSingleFile baseName lang dir).

Definition main (argv : Argv) : M unit :=
  let currentDir := cwd h in
  (if truthy (basename argv) then
     console_log (MsgManualMode (text (basename argv))) ;;
     processSingleFile (text (basename argv)) (lang argv) currentDir
   else
     console_log (MsgAutomaticMode currentDir) ;;
     processDirectory (lang argv) currentDir) ;;
  console_log MsgDone.

End Program.

(** The texts of this variant that differ from those of [index.js]. *)
Definition render (m : Message) : string :=
  match m with
  | MsgManualMode b =>
      "Manual mode: Processing files for base name "
        ++ Str.quote ++ b ++ Str.quote
  | MsgAutomaticMode d =>
      "Automatic mode: Scanning for files in: " ++ d ++ Str.newline
  | MsgFailedToStart f _ => "  âœ— Failed to start FFmpeg for " ++ f
  | _ => Index.render m
  end.

End Part000.

(** ** Reading a run *)

(** The item processor returns nothing; what became of an item shows in
    what it printed.  A [ConversionResult] is read off each console call
    that reports on an item: [Successfully created], [Skipping], or one of
    the two error reports of the engine invoker. *)
Inductive Cause : Type :=
| NonZeroExit (code : option Z)
| LaunchFailed (err : JsError).

Inductive ConversionResult : Type :=
| Converted (file : string)
| Skipped (baseName : string)
| Failed (file : string) (cause : Cause).

Definition resultOf (e : Event) : option ConversionResult :=
  match e with
  | ConsoleLog (MsgCreated f) => Some (Converted f)
  | ConsoleLog (MsgSkipping b) => Some (Skipped b)
  | ConsoleError (MsgExited code f) => Some (Failed f (NonZeroExit code))
  | ConsoleError (MsgFailedToStart f err) => Some (Failed f (LaunchFailed err))
  | _ => None
  end.

Fixpoint results (tr : list Event) : list ConversionResult :=
  match tr with
  | [] => []
  | e :: tr' =>
      match resultOf e with
      | Some r => r :: results tr'
      | None => results tr'
      end
  end.

Definition isFailed (r : ConversionResult) : bool :=
  match r with
  | Failed _ _ => true
  | _ => false
  end.

(** An item is taken up when the item processor prints [Processing] or
    [Skipping], the first thing it does either way. *)
Definition startsItem (e : Event) : bool :=
  match e with
  | ConsoleLog (MsgProcessing _) => true
  | ConsoleLog (MsgSkipping _) => true
  | _ => false
  end.

Definition itemsStarted (tr : list Event) : nat :=
  List.length (filter startsItem tr).

(** The engine invocations of a run, in order. *)
Fixpoint spawns (tr : list Event) : list (string * list string) :=
  match tr with
  | [] => []
  | Spawn file args :: tr' => (file, args) :: spawns tr'
  | _ :: tr' => spawns tr'
  end.

Definition present (fs : FileSystem) (p : string) : bool :=
  match stat fs p with
  | Some _ => true
  | None => false
  end.

Definition regularFile (fs : FileSystem) (p : string) : bool :=
  match stat fs p with
  | Some RegularFile => true
  | _ => false
  end.

(** *** The exit status of the process

    The script ends with [main();] and drops the promise.  When the promise
    is fulfilled the process ends with status 0 once nothing is left to do.
    When it is rejected nobody handles the rejection, and the status is
    Node's business: its [--unhandled-rejections] mode decides. *)
Inductive UnhandledRejections : Type :=
| ModeThrow
| ModeStrict
| ModeWarn
| ModeWarnWithErrorCode
| ModeNone.

(** The default since Node 15. *)
Definition nodeDefault : UnhandledRejections := ModeThrow.

Definition exitStatus {A : Type} (mode : UnhandledRejections) (c : Completion A)
  : Z :=
  match c with
  | Normal _ => 0%Z
  | Exited code => code
  | Thrown _ =>
      match mode with
      | ModeWarn | ModeNone => 0%Z
      | ModeThrow | ModeStrict | ModeWarnWithErrorCode => 1%Z
      end
  end.

(** ** The specification's view of the code *)

(** The batch discoverer of the specification: the base names that
    [processDirectory] hands to the item processor, for a listing. *)
Definition discover (allFiles : list string) : list string :=
  map (fun flacFile => Path.basename flacFile (Some (Path.extname flacFile)))
      (filter Index.isFlac allFiles).

(** A file name less its extension. *)
Definition stem (file : string) : string :=
  Str.take (length file - length (Path.extname file)) file.

(** The four derived paths of a conversion item, for a subtitle extension. *)
Record Paths : Type := mkPaths {
  audioPath : string;
  imagePath : string;
  subtitlePath : string;
  outputPath : string
}.

Definition pathsOf (subtitleExt dir baseName : string) : Paths :=
  {| audioPath := Path.join dir (baseName ++ ".flac");
     imagePath := Path.join dir (baseName ++ ".jpg");
     subtitlePath := Path.join dir (baseName ++ subtitleExt);
     outputPath := Path.join dir (baseName ++ ".m4a") |}.

(** The item is complete: its three inputs are there. *)
Definition complete (fs : FileSystem) (p : Paths) : bool :=
  present fs (audioPath p) && present fs (imagePath p)
  && present fs (subtitlePath p).

(** The argument list of section 6 of the specification. *)
Definition engineArgs (p : Paths) (languageTag : string) : list string :=
  [ "-i"; audioPath p; "-i"; imagePath p; "-i"; subtitlePath p;
    "-c:a"; "alac"; "-c:v"; "copy"; "-c:s"; "mov_text";
    "-map"; "0:a"; "-map"; "1:v"; "-map"; "2:s";
    "-metadata:s:s:0"; "language=" ++ languageTag;
    "-disposition:v"; "attached_pic";
    "-y"; outputPath p ].

(** The item processor with the subtitle extension as a named constant
    and the engine invoker as a parameter. *)
Definition processItemWith (subtitleExt : string)
    (invoke : string -> string -> string -> string -> string -> M unit)
    (baseName lang dir : string) : M unit :=
  let p := pathsOf subtitleExt dir baseName in
  hasFlac <- existsSync (audioPath p) ;;
  hasJpg <- (if hasFlac then existsSync (imagePath p) else ret false) ;;
  hasLyc <- (if hasJpg then existsSync (subtitlePath p) else ret false) ;;
  if hasLyc then
    console_log (MsgProcessing (Path.basename (audioPath p) None)) ;;
    invoke (audioPath p) (imagePath p) (subtitlePath p) (outputPath p) lang
  else
    console_log (MsgSkipping baseName).

(** *** Runs written out

    The runs of the engine invoker, of the pre-flight check and of the mode
    chosen by [main], as the lemmas below establish them. *)

(** What the engine invoker does, by the event of the child. *)
Definition invokerRun (h : Host) (flacFile jpgFile lycFile outputFile lang : string)
    (fs : FileSystem) : Run unit :=
  let call := Spawn (ffmpegPath h)
                (Index.args flacFile jpgFile lycFile outputFile lang) in
  let out := child h fs (ffmpegPath h)
               (Index.args flacFile jpgFile lycFile outputFile lang) in
  match fst out with
  | Close (Some 0%Z) =>
      mkRun [call; ConsoleLog (MsgCreated (Path.basename outputFile None))]
        (snd out) (Normal tt)
  | Close code =>
      mkRun [call; ConsoleError (MsgExited code (Path.basename flacFile None))]
        (snd out) (Thrown (NewError "FFmpeg error"))
  | SpawnError err errno =>
      mkRun [call;
             ConsoleError (MsgFailedToStart (Path.basename flacFile None) err);
             ConsoleError (MsgExited (Some (Z.neg errno))
                             (Path.basename flacFile None))]
        (snd out) (Thrown err)
  end.

(** The [if]/[else] of [main]. *)
Definition chosenMode (h : Host) (argv : Argv) : M unit :=
  if truthy (basename argv) then
    console_log (MsgManualMode (text (basename argv))) ;;
    Index.processSingleFile h (text (basename argv)) (lang argv) (cwd h)
  else
    console_log (MsgAutomaticMode (cwd h)) ;;
    Index.processDirectory h (lang argv) (cwd h).

(** The pre-flight check, by what it finds. *)
Definition preflightRun (h : Host) (fs : FileSystem) : Run bool :=
  if present fs (ffmpegPath h) then mkRun [] fs (Normal true)
  else
    match fst (installer h fs) with
    | None =>
        mkRun [ConsoleLog MsgBinaryNotFound; ConsoleLog MsgMayTakeAMoment;
               InstallScript; ConsoleLog MsgDownloaded]
          (snd (installer h fs)) (Normal true)
    | Some error =>
        mkRun [ConsoleLog MsgBinaryNotFound; ConsoleLog MsgMayTakeAMoment;
               InstallScript; ConsoleError (MsgDownloadFailed error);
               ConsoleError MsgCheckNetwork]
          (snd (installer h fs)) (Normal false)
    end.

(** Events of the pre-flight check. *)
Definition preflightEvent (e : Event) : bool :=
  match e with
  | ConsoleLog MsgBinaryNotFound | ConsoleLog MsgMayTakeAMoment
  | ConsoleLog MsgDownloaded | ConsoleError (MsgDownloadFailed _)
  | ConsoleError MsgCheckNetwork | InstallScript => true
  | _ => false
  end.

(** Events of the batch: those of the item processor and the engine
    invoker, and the report of an empty scan. *)
Definition batchEvent (e : Event) : bool :=
  match e with
  | ConsoleLog (MsgProcessing _) | ConsoleLog (MsgSkipping _)
  | ConsoleLog (MsgCreated _) | ConsoleLog MsgNoFlacFiles
  | ConsoleError (MsgExited _ _) | ConsoleError (MsgFailedToStart _ _)
  | Spawn _ _ => true
  | _ => false
  end.

(** No ['/'] in [s]: what holds of the name of a directory entry. *)
Fixpoint noSlash (s : string) : bool :=
  match s with
  | EmptyString => true
  | String c s' => negb (Str.isSlash c) && noSlash s'
  end.

(** An extension as the code appends it: a ['.'], then a character that is
    not a ['.'], and no ['/'] anywhere. *)
Definition plainExt (ext : string) : bool :=
  match ext with
  | String d (String c rest) =>
      Str.isDot d && negb (Str.isDot c) && noSlash (String c rest)
  | _ => false
  end.

(** What [path.join(dir, baseName + ext)] is without its [ext]. *)
Definition joinedStem (dir baseName : string) : string :=
  let joined := if dir =? "" then baseName else dir ++ "/" ++ baseName in
  let isAbsolute := Str.startsWithSlash joined in
  let segs := Str.split joined in
  (if isAbsolute then "/" else "")
    ++ Str.joinSlash
         (Path.normalizeSegments (negb isAbsolute) (removelast segs)
            ++ [last segs ""])%list.

(** ** Worlds to run the program in *)

(** A file system with one directory [dir] of [entries] and the regular
    files [others] elsewhere. *)
Definition album (dir : string) (entries : list (string * Kind))
    (others : list string) : FileSystem :=
  {| stat p :=
       if p =? dir then Some Directory
       else if existsb (String.eqb p) others then Some RegularFile
       else match find (fun e => Path.join dir (fst e) =? p) entries with
            | Some e => Some (snd e)
            | None => None
            end;
     readdir d :=
       if d =? dir then inr (map fst entries)
       else inl (SystemError "ENOENT") |}.

(** A machine whose engine answers by [behaviour] and leaves the files
    alone, and whose install script fails. *)
Definition machine (bin dir : string) (behaviour : list string -> ChildEvent)
  : Host :=
  {| ffmpegPath := bin;
     cwd := dir;
     child fs _ args := (behaviour args, fs);
     installer fs := (Some (SystemError "ENOENT"), fs) |}.

Definition exits (code : Z) : list string -> ChildEvent :=
  fun _ => Close (Some code).

(** Two complete items. *)
Definition songs : list (string * Kind) :=
  [ ("a.flac", RegularFile); ("a.jpg", RegularFile); ("a.lrc", RegularFile);
    ("b.flac", RegularFile); ("b.jpg", RegularFile); ("b.lrc", RegularFile) ].

(** The directory of the end-to-end scenario of the specification. *)
Definition strayAudio : list (string * Kind) :=
  [ ("a.flac", RegularFile); ("a.jpg", RegularFile); ("a.lrc", RegularFile);
    ("b.flac", RegularFile) ].

(** The cover of [a] is a directory. *)
Definition coverIsDirectory : list (string * Kind) :=
  [ ("a.flac", RegularFile); ("a.jpg", Directory); ("a.lrc", RegularFile) ].

(** One base name under two spellings of the extension. *)
Definition mixedCase : list (string * Kind) :=
  [ ("a.flac", RegularFile); ("a.FLAC", RegularFile) ].

Definition hostOK : Host := machine "/opt/ffmpeg" "/music" (exits 0).
Definition hostKO : Host := machine "/opt/ffmpeg" "/music" (exits 1).

(** The engine is there, in a directory of its own. *)
Definition installed (entries : list (string * Kind)) : FileSystem :=
  album "/music" entries ["/opt/ffmpeg"].

(** ** Further readings of a run *)

Definition isSkipped (r : ConversionResult) : bool :=
  match r with
  | Skipped _ => true
  | _ => false
  end.

(** How many items were skipped. *)
Definition skips (rs : list ConversionResult) : nat :=
  List.length (filter isSkipped rs).

(** What the engine invoker prints when it rejects with [e]: for an exit
    with a code other than 0 one failure, and [e] is the fixed error; for
    an engine that could not be started two failures, the launch failure
    with the error [e] of the launcher and the exit with the negative error
    number. *)
Definition failurePrints (e : JsError) (fails : list ConversionResult) : Prop :=
  (exists file code,
      fails = [Failed file (NonZeroExit code)]
      /\ code <> Some 0%Z
      /\ e = NewError "FFmpeg error")
  \/ (exists file errno,
         fails = [Failed file (LaunchFailed e);
                  Failed file (NonZeroExit (Some (Z.neg errno)))]).

(** How often the install script was tried. *)
Definition installs (tr : list Event) : nat :=
  List.length (filter (fun e => match e with InstallScript => true | _ => false end) tr).

(** The last character of a string. *)
Fixpoint lastChar (s : string) : option ascii :=
  match s with
  | EmptyString => None
  | String c EmptyString => Some c
  | String _ s' => lastChar s'
  end.

(** What becomes of a candidate when the engine succeeds. *)
Definition settled (fs : FileSystem) (dir baseName : string) : ConversionResult :=
  let p := pathsOf ".lrc" dir baseName in
  if complete fs p then Converted (Path.basename (outputPath p) None)
  else Skipped baseName.

(** A machine that runs in a directory that cannot be listed. *)
Definition hostAstray : Host := machine "/opt/ffmpeg" "/gone" (exits 0).

(** * Properties *)

Arguments Path.basename : simpl never.
Arguments Path.join : simpl never.
Arguments Path.extname : simpl never.
Arguments Str.toLowerCase : simpl never.

(** ** The path model on the examples of Node's documentation *)

Example extname_html : Path.extname "index.html" = ".html".
Proof. reflexivity. Qed.
Example extname_two : Path.extname "index.coffee.md" = ".md".
Proof. reflexivity. Qed.
Example extname_dot : Path.extname "index." = ".".
Proof. reflexivity. Qed.
Example extname_none : Path.extname "index" = "".
Proof. reflexivity. Qed.
Example extname_hidden : Path.extname ".index" = "".
Proof. reflexivity. Qed.
Example extname_hidden_md : Path.extname ".index.md" = ".md".
Proof. reflexivity. Qed.
Example basename_quux :
  Path.basename "/foo/bar/baz/asdf/quux.html" (Some ".html") = "quux".
Proof. reflexivity. Qed.
Example basename_plain :
  Path.basename "/foo/bar/baz/asdf/quux.html" None = "quux.html".
Proof. reflexivity. Qed.
Example join_doc :
  Path.join (Path.join (Path.join (Path.join "/foo" "bar") "baz/asdf") "quux") ".."
  = "/foo/bar/baz/asdf".
Proof. reflexivity. Qed.
Example join_music : Path.join "/music" "a.flac" = "/music/a.flac".
Proof. reflexivity. Qed.
Example join_up : Path.join "/music" "../x.flac" = "/x.flac".
Proof. reflexivity. Qed.
Example lower_FLAC : Str.toLowerCase ".FlAc" = ".flac".
Proof. reflexivity. Qed.
Example code_text : Str.ofCode (Some (-2)%Z) = "-2" /\ Str.ofCode (Some 0%Z) = "0".
Proof. split; reflexivity. Qed.

(** ** Running the engine invoker *)

Lemma runFfmpeg_run h flacFile jpgFile lycFile outputFile lang fs :
  Index.runFfmpeg h flacFile jpgFile lycFile outputFile lang fs
  = invokerRun h flacFile jpgFile lycFile outputFile lang fs.
Proof.
  unfold Index.runFfmpeg, invokerRun, bind, spawn.
  destruct (child h fs (ffmpegPath h)
              (Index.args flacFile jpgFile lycFile outputFile lang)) as [ev fs'].
  cbn. destruct ev as [[[| q | q] |] | err]; reflexivity.
Qed.

Lemma runFfmpeg_variant h flacFile jpgFile lycFile outputFile lang fs :
  Part000.runFfmpeg h flacFile jpgFile lycFile outputFile lang fs
  = invokerRun h flacFile jpgFile lycFile outputFile lang fs.
Proof. exact (runFfmpeg_run h flacFile jpgFile lycFile outputFile lang fs). Qed.

Lemma args_engineArgs subtitleExt dir b lang :
  let p := pathsOf subtitleExt dir b in
  Index.args (audioPath p) (imagePath p) (subtitlePath p) (outputPath p) lang
  = engineArgs p lang.
Proof. reflexivity. Qed.

(** The item processor, by the completeness of the item. *)
Lemma processItemWith_run subtitleExt invoke b lang dir fs :
  let p := pathsOf subtitleExt dir b in
  processItemWith subtitleExt invoke b lang dir fs
  = if complete fs p then
      let r := invoke (audioPath p) (imagePath p) (subtitlePath p) (outputPath p)
                 lang fs in
      mkRun (ConsoleLog (MsgProcessing (Path.basename (audioPath p) None))
               :: events r) (after r) (completion r)
    else mkRun [ConsoleLog (MsgSkipping b)] fs (Normal tt).
Proof.
  intros p. unfold processItemWith. fold p. clearbody p.
  unfold complete, present, bind, existsSync, ret, console_log, emit. cbn.
  destruct (stat fs (audioPath p)); cbn;
    [destruct (stat fs (imagePath p)); cbn;
     [destruct (stat fs (subtitlePath p)); cbn |] |];
    reflexivity.
Qed.

Lemma processSingleFile_generic h b lang dir :
  Index.processSingleFile h b lang dir
  = processItemWith ".lrc" (Index.runFfmpeg h) b lang dir.
Proof. reflexivity. Qed.

Lemma processSingleFile_variant h b lang dir :
  Part000.processSingleFile h b lang dir
  = processItemWith ".lyc" (Part000.runFfmpeg h) b lang dir.
Proof. reflexivity. Qed.

(** The item processor of [index.js] on a complete item. *)
Lemma processSingleFile_complete h b lang dir fs :
  let p := pathsOf ".lrc" dir b in
  complete fs p = true ->
  let r := invokerRun h (audioPath p) (imagePath p) (subtitlePath p)
             (outputPath p) lang fs in
  Index.processSingleFile h b lang dir fs
  = mkRun (ConsoleLog (MsgProcessing (Path.basename (audioPath p) None))
             :: events r) (after r) (completion r).
Proof.
  intros p Hc r. rewrite processSingleFile_generic.
  pose proof (processItemWith_run ".lrc" (Index.runFfmpeg h) b lang dir fs) as E.
  cbv zeta in E. fold p in E. rewrite Hc in E.
  rewrite runFfmpeg_run in E. exact E.
Qed.

Lemma processSingleFile_incomplete h b lang dir fs :
  complete fs (pathsOf ".lrc" dir b) = false ->
  Index.processSingleFile h b lang dir fs
  = mkRun [ConsoleLog (MsgSkipping b)] fs (Normal tt).
Proof.
  intros Hc. rewrite processSingleFile_generic.
  pose proof (processItemWith_run ".lrc" (Index.runFfmpeg h) b lang dir fs) as E.
  cbv zeta in E. rewrite Hc in E. exact E.
Qed.

Lemma complete_true fs p :
  complete fs p = true <->
  present fs (audioPath p) = true /\ present fs (imagePath p) = true
  /\ present fs (subtitlePath p) = true.
Proof.
  unfold complete. rewrite !andb_true_iff. tauto.
Qed.

Lemma complete_false fs p :
  complete fs p = false <->
  present fs (audioPath p) = false \/ present fs (imagePath p) = false
  \/ present fs (subtitlePath p) = false.
Proof.
  unfold complete. rewrite !andb_false_iff. tauto.
Qed.

(** The three shapes of a run of the engine invoker. *)
Lemma invokerRun_cases h a i s o l fs :
  let r := invokerRun h a i s o l fs in
  let call := Spawn (ffmpegPath h) (Index.args a i s o l) in
  let ev := fst (child h fs (ffmpegPath h) (Index.args a i s o l)) in
  (ev = Close (Some 0%Z)
   /\ events r = [call; ConsoleLog (MsgCreated (Path.basename o None))]
   /\ completion r = Normal tt)
  \/ (exists code, ev = Close code /\ code <> Some 0%Z
      /\ events r = [call; ConsoleError (MsgExited code (Path.basename a None))]
      /\ completion r = Thrown (NewError "FFmpeg error"))
  \/ (exists err errno, ev = SpawnError err errno
      /\ events r
         = [call; ConsoleError (MsgFailedToStart (Path.basename a None) err);
            ConsoleError (MsgExited (Some (Z.neg errno)) (Path.basename a None))]
      /\ completion r = Thrown err).
Proof.
  unfold invokerRun.
  destruct (fst (child h fs (ffmpegPath h) (Index.args a i s o l)))
    as [[[| q | q] |] | err errno]; cbn.
  - left. auto.
  - right; left. exists (Some (Z.pos q)). repeat split; congruence.
  - right; left. exists (Some (Z.neg q)). repeat split; congruence.
  - right; left. exists None. repeat split; congruence.
  - right; right. exists err, errno. auto.
Qed.




(** C3: on a complete item the item processor invokes the engine exactly
    once, with the argument list of section 6 built from the derived paths
    and the language tag as given, and it ends as Converted, returning
    normally, iff the engine exits with status 0. *)
Theorem processSingleFile_invokes_engine_once h b lang dir fs :
  present fs (Path.join dir (b ++ ".flac")) = true ->
  present fs (Path.join dir (b ++ ".jpg")) = true ->
  present fs (Path.join dir (b ++ ".lrc")) = true ->
  let r := Index.processSingleFile h b lang dir fs in
  let argv :=
    [ "-i"; Path.join dir (b ++ ".flac");
      "-i"; Path.join dir (b ++ ".jpg");
      "-i"; Path.join dir (b ++ ".lrc");
      "-c:a"; "alac"; "-c:v"; "copy"; "-c:s"; "mov_text";
      "-map"; "0:a"; "-map"; "1:v"; "-map"; "2:s";
      "-metadata:s:s:0"; "language=" ++ lang;
      "-disposition:v"; "attached_pic";
      "-y"; Path.join dir (b ++ ".m4a") ] in
  let exit := fst (child h fs (ffmpegPath h) argv) in
  spawns (events r) = [(ffmpegPath h, argv)]
  /\ (results (events r)
      = [Converted (Path.basename (Path.join dir (b ++ ".m4a")) None)]
      <-> exit = Close (Some 0%Z))
  /\ (completion r = Normal tt <-> exit = Close (Some 0%Z)).
Proof.
  intros Ha Hi Hs r argv exit.
  assert (Hc : complete fs (pathsOf ".lrc" dir b) = true)
    by (apply complete_true; auto).
  subst r. rewrite (processSingleFile_complete h b lang dir fs Hc).
  cbn [events completion].
  destruct (invokerRun_cases h (audioPath (pathsOf ".lrc" dir b))
              (imagePath (pathsOf ".lrc" dir b))
              (subtitlePath (pathsOf ".lrc" dir b))
              (outputPath (pathsOf ".lrc" dir b)) lang fs)
    as [(E & Ev & C) | [(code & E & N & Ev & C) | (err & errno & E & Ev & C)]];
    change (Index.args (audioPath (pathsOf ".lrc" dir b))
              (imagePath (pathsOf ".lrc" dir b))
              (subtitlePath (pathsOf ".lrc" dir b))
              (outputPath (pathsOf ".lrc" dir b)) lang) with argv in *;
    fold exit in E; rewrite Ev, C; cbn.
  - split; [reflexivity |]. split; split; auto.
  - split; [reflexivity |]. split; split; intros; congruence.
  - split; [reflexivity |]. split; split; intros; congruence.
Qed.

Lemma processSingleFile_invokes_engine_once_witness :
  let r := Index.processSingleFile hostOK "a" "eng" "/music" (installed strayAudio) in
  spawns (events r)
  = [("/opt/ffmpeg",
      [ "-i"; "/music/a.flac"; "-i"; "/music/a.jpg"; "-i"; "/music/a.lrc";
        "-c:a"; "alac"; "-c:v"; "copy"; "-c:s"; "mov_text";
        "-map"; "0:a"; "-map"; "1:v"; "-map"; "2:s";
        "-metadata:s:s:0"; "language=eng";
        "-disposition:v"; "attached_pic"; "-y"; "/music/a.m4a" ])]
  /\ results (events r) = [Converted "a.m4a"]
  /\ completion r = Normal tt.
Proof.
  destruct (processSingleFile_invokes_engine_once hostOK "a" "eng" "/music"
              (installed strayAudio) eq_refl eq_refl eq_refl) as (S & R & C).
  split; [exact S |]. split; [apply R | apply C]; reflexivity.
Defined.

(** C5: when one of the three inputs is missing the item processor prints
    that it skips the item and returns at once, without a fault and without
    invoking the engine; the file system is as before, and a batch loop
    that meets the item goes on with the items after it. *)
Theorem processSingleFile_skips_incomplete h b lang dir fs :
  present fs (Path.join dir (b ++ ".flac")) = false
  \/ present fs (Path.join dir (b ++ ".jpg")) = false
  \/ present fs (Path.join dir (b ++ ".lrc")) = false ->
  let r := Index.processSingleFile h b lang dir fs in
  r = mkRun [ConsoleLog (MsgSkipping b)] fs (Normal tt)
  /\ results (events r) = [Skipped b]
  /\ spawns (events r) = []
  /\ forall rest,
       let batch := forOf (b :: rest)
                      (fun x => Index.processSingleFile h x lang dir) fs in
       let others := forOf rest
                       (fun x => Index.processSingleFile h x lang dir) fs in
       events batch = ConsoleLog (MsgSkipping b) :: events others
       /\ completion batch = completion others.
Proof.
  intros Hm r.
  assert (Hc : complete fs (pathsOf ".lrc" dir b) = false)
    by (apply complete_false; exact Hm).
  subst r. rewrite (processSingleFile_incomplete h b lang dir fs Hc).
  repeat split.
  - cbn [forOf]. unfold bind.
    rewrite (processSingleFile_incomplete h b lang dir fs Hc). reflexivity.
  - cbn [forOf]. unfold bind.
    rewrite (processSingleFile_incomplete h b lang dir fs Hc). reflexivity.
Qed.

Lemma processSingleFile_skips_incomplete_witness :
  let r := Index.processSingleFile hostOK "b" "eng" "/music" (installed strayAudio) in
  results (events r) = [Skipped "b"] /\ spawns (events r) = []
  /\ completion r = Normal tt.
Proof.
  destruct (processSingleFile_skips_incomplete hostOK "b" "eng" "/music"
              (installed strayAudio) (or_intror (or_introl eq_refl)))
    as (E & R & S & _).
  split; [exact R |]. split; [exact S |].
  exact (f_equal completion E).
Defined.

(** ** The batch loop *)

Lemma results_app tr1 tr2 :
  results (tr1 ++ tr2)%list = (results tr1 ++ results tr2)%list.
Proof.
  induction tr1 as [| e tr1 IH]; cbn; [reflexivity |].
  destruct (resultOf e); cbn; rewrite IH; reflexivity.
Qed.

Lemma itemsStarted_app tr1 tr2 :
  itemsStarted (tr1 ++ tr2)%list = itemsStarted tr1 + itemsStarted tr2.
Proof.
  unfold itemsStarted. rewrite filter_app, length_app. reflexivity.
Qed.

Lemma spawns_app tr1 tr2 :
  spawns (tr1 ++ tr2)%list = (spawns tr1 ++ spawns tr2)%list.
Proof.
  induction tr1 as [| e tr1 IH]; cbn; [reflexivity |].
  destruct e; cbn; rewrite IH; reflexivity.
Qed.

Lemma forOf_cons {A : Type} (x : A) rest body fs :
  forOf (x :: rest) body fs
  = let r := body x fs in
    match completion r with
    | Normal _ =>
        let r' := forOf rest body (after r) in
        mkRun (events r ++ events r')%list (after r') (completion r')
    | Thrown e => mkRun (events r) (after r) (Thrown e)
    | Exited code => mkRun (events r) (after r) (Exited code)
    end.
Proof. reflexivity. Qed.

Lemma forOf_map {A B : Type} (f : A -> B) body xs :
  forall fs, forOf (map f xs) body fs = forOf xs (fun x => body (f x)) fs.
Proof.
  induction xs as [| x xs IH]; intros fs; [reflexivity |].
  cbn [map]. rewrite !forOf_cons. cbv zeta.
  destruct (completion (body (f x) fs)); try reflexivity.
  rewrite IH. reflexivity.
Qed.

(** [processDirectory] on a readable directory: the loop over the
    discovered base names, or the report that there are none. *)
Lemma processDirectory_run h lang dir fs names :
  readdir fs dir = inr names ->
  Index.processDirectory h lang dir fs
  = match discover names with
    | [] => mkRun [ConsoleLog MsgNoFlacFiles] fs (Normal tt)
    | _ :: _ =>
        forOf (discover names) (fun b => Index.processSingleFile h b lang dir) fs
    end.
Proof.
  intros Hr. unfold Index.processDirectory, bind, readdirSync. rewrite Hr.
  cbn [completion after events]. unfold discover.
  destruct (filter Index.isFlac names) as [| f fl] eqn:Ef; [reflexivity |].
  cbn [List.length Nat.eqb app]. rewrite forOf_map.
  destruct (forOf (f :: fl) _ fs); reflexivity.
Qed.

Lemma failurePrints_failed e fails :
  failurePrints e fails ->
  existsb isFailed fails = true
  /\ forallb isFailed fails = true
  /\ (List.length fails = 1 \/ List.length fails = 2).
Proof.
  intros [(file & code & -> & _) | (file & errno & ->)]; cbn; auto.
Qed.

(** What an item comes to, for either variant: it is taken up once and
    the engine is invoked at most once; when the item processor returns,
    one outcome that is no failure was printed; when it throws, the
    failure or the two failures of the engine invoker were printed. *)
Lemma item_outcomes h p b lang fs (r : Run unit) :
  r = (if complete fs p then
         let inv := invokerRun h (audioPath p) (imagePath p) (subtitlePath p)
                      (outputPath p) lang fs in
         mkRun (ConsoleLog (MsgProcessing (Path.basename (audioPath p) None))
                  :: events inv) (after inv) (completion inv)
       else mkRun [ConsoleLog (MsgSkipping b)] fs (Normal tt)) ->
  itemsStarted (events r) = 1
  /\ List.length (spawns (events r)) <= 1
  /\ itemsStarted (events r)
     = List.length (spawns (events r)) + skips (results (events r))
  /\ forallb batchEvent (events r) = true
  /\ ((completion r = Normal tt
       /\ exists x, results (events r) = [x] /\ isFailed x = false)
      \/ (exists e, completion r = Thrown e
                    /\ failurePrints e (results (events r)))).
Proof.
  intros ->. destruct (complete fs p).
  - cbv zeta. cbn [events completion].
    destruct (invokerRun_cases h (audioPath p) (imagePath p) (subtitlePath p)
                (outputPath p) lang fs)
      as [(E & Ev & C) | [(code & E & N & Ev & C) | (err & errno & E & Ev & C)]];
      rewrite Ev, C; cbn; repeat split; auto.
    + left. split; [reflexivity |]. eexists. split; reflexivity.
    + right. eexists. split; [reflexivity |]. left. eauto.
    + right. eexists. split; [reflexivity |]. right. eauto.
  - cbn. repeat split; auto.
    left. split; [reflexivity |]. exists (Skipped b). auto.
Qed.

Lemma processSingleFile_outcomes h b lang dir fs :
  let r := Index.processSingleFile h b lang dir fs in
  itemsStarted (events r) = 1
  /\ List.length (spawns (events r)) <= 1
  /\ itemsStarted (events r)
     = List.length (spawns (events r)) + skips (results (events r))
  /\ forallb batchEvent (events r) = true
  /\ ((completion r = Normal tt
       /\ exists x, results (events r) = [x] /\ isFailed x = false)
      \/ (exists e, completion r = Thrown e
                    /\ failurePrints e (results (events r)))).
Proof.
  apply (item_outcomes h (pathsOf ".lrc" dir b) b lang fs).
  destruct (complete fs (pathsOf ".lrc" dir b)) eqn:Hc.
  - apply (processSingleFile_complete h b lang dir fs Hc).
  - apply (processSingleFile_incomplete h b lang dir fs Hc).
Qed.

(** A loop over items stops behind the first item that throws: the items
    before it printed one outcome each, none of them a failure, and the
    last one printed its failure or failures. *)
Lemma forOf_until_failure (body : string -> M unit) bs :
  (forall b fs,
      itemsStarted (events (body b fs)) = 1
      /\ ((completion (body b fs) = Normal tt
           /\ exists x, results (events (body b fs)) = [x] /\ isFailed x = false)
          \/ (exists e, completion (body b fs) = Thrown e
                        /\ failurePrints e (results (events (body b fs)))))) ->
  forall fs,
    let r := forOf bs body fs in
    let rs := results (events r) in
    itemsStarted (events r) <= List.length bs
    /\ ((completion r = Normal tt
         /\ itemsStarted (events r) = List.length bs
         /\ List.length rs = List.length bs
         /\ existsb isFailed rs = false)
        \/ (exists e front fails,
               completion r = Thrown e
               /\ rs = (front ++ fails)%list
               /\ existsb isFailed front = false
               /\ itemsStarted (events r) = S (List.length front)
               /\ failurePrints e fails)).
Proof.
  intros Hbody. induction bs as [| b bs IH]; intros fs.
  - cbn. split; [lia |]. left. auto.
  - cbv zeta. rewrite forOf_cons. cbv zeta.
    destruct (Hbody b fs) as (Ix & [(C & x & Rx & Fx) | (e & C & Fp)]);
      rewrite C.
    + specialize (IH (after (body b fs))). cbv zeta in IH.
      cbn [events completion].
      rewrite results_app, itemsStarted_app, Rx, Ix.
      destruct IH as (I & Sh). cbn [List.length app].
      split; [lia |].
      destruct Sh as [(C' & L1 & L2 & F) | (e & front & fails & C' & Rs & F & L & Fp)].
      * left. cbn [existsb]. rewrite Fx, F. repeat split; auto; lia.
      * right. exists e, (x :: front), fails.
        rewrite Rs. cbn [existsb app List.length]. rewrite Fx, F.
        repeat split; auto; lia.
    + cbn [events completion]. rewrite Ix. cbn [List.length].
      split; [lia |].
      right. exists e, [], (results (events (body b fs))). cbn. auto.
Qed.


Lemma processSingleFile_step h lang dir :
  forall b fs,
    itemsStarted (events (Index.processSingleFile h b lang dir fs)) = 1
    /\ ((completion (Index.processSingleFile h b lang dir fs) = Normal tt
         /\ exists x, results (events (Index.processSingleFile h b lang dir fs))
                      = [x] /\ isFailed x = false)
        \/ (exists e, completion (Index.processSingleFile h b lang dir fs)
                      = Thrown e
                      /\ failurePrints e
                           (results (events
                              (Index.processSingleFile h b lang dir fs))))).
Proof.
  intros b fs.
  destruct (processSingleFile_outcomes h b lang dir fs) as (I & _ & _ & _ & H).
  auto.
Qed.




(** ** The whole run *)

Lemma ensureFfmpegIsAvailable_run h fs :
  Index.ensureFfmpegIsAvailable h fs = preflightRun h fs.
Proof.
  unfold Index.ensureFfmpegIsAvailable, preflightRun, bind, existsSync, present.
  cbn [completion after events].
  destruct (stat fs (ffmpegPath h)); [reflexivity |].
  unfold tryCatch, bind, runInstallScript, console_log, console_error, emit, ret.
  cbn [completion after events app].
  destruct (installer h fs) as [[err |] fs']; reflexivity.
Qed.

Lemma preflight_returns h fs :
  exists ready,
    completion (Index.ensureFfmpegIsAvailable h fs) = Normal ready
    /\ forallb preflightEvent (events (Index.ensureFfmpegIsAvailable h fs)) = true.
Proof.
  rewrite ensureFfmpegIsAvailable_run. unfold preflightRun.
  destruct (present fs (ffmpegPath h)); [exists true; auto |].
  destruct (fst (installer h fs)); [exists false | exists true]; auto.
Qed.

Lemma main_run h argv fs :
  let pre := Index.ensureFfmpegIsAvailable h fs in
  Index.main h argv fs
  = match completion pre with
    | Normal true =>
        let b := chosenMode h argv (after pre) in
        match completion b with
        | Normal _ =>
            mkRun (events pre ++ events b ++ [ConsoleLog MsgDone])%list
              (after b) (Normal tt)
        | Thrown e => mkRun (events pre ++ events b)%list (after b) (Thrown e)
        | Exited code =>
            mkRun (events pre ++ events b)%list (after b) (Exited code)
        end
    | Normal false => mkRun (events pre) (after pre) (Exited 1%Z)
    | Thrown e => mkRun (events pre) (after pre) (Thrown e)
    | Exited code => mkRun (events pre) (after pre) (Exited code)
    end.
Proof.
  intros pre. unfold Index.main. fold (chosenMode h argv).
  unfold bind at 1. fold pre.
  destruct (completion pre) as [[|] | e | code]; try reflexivity.
  - cbn [negb]. unfold bind, ret, console_log, emit.
    cbn [completion after events app].
    destruct (completion (chosenMode h argv (after pre))); reflexivity.
  - cbn [negb]. unfold bind, process_exit. cbn [completion after events].
    rewrite app_nil_r. reflexivity.
Qed.

Lemma processSingleFile_events h b lang dir fs :
  forallb batchEvent (events (Index.processSingleFile h b lang dir fs)) = true.
Proof.
  destruct (complete fs (pathsOf ".lrc" dir b)) eqn:Hc.
  - rewrite (processSingleFile_complete h b lang dir fs Hc).
    cbn [events].
    destruct (invokerRun_cases h (audioPath (pathsOf ".lrc" dir b))
                (imagePath (pathsOf ".lrc" dir b))
                (subtitlePath (pathsOf ".lrc" dir b))
                (outputPath (pathsOf ".lrc" dir b)) lang fs)
      as [(_ & Ev & _) | [(code & _ & _ & Ev & _) | (err & errno & _ & Ev & _)]];
      rewrite Ev; reflexivity.
  - rewrite (processSingleFile_incomplete h b lang dir fs Hc). reflexivity.
Qed.

Lemma forOf_events h lang dir bs :
  forall fs,
    forallb batchEvent
      (events (forOf bs (fun b => Index.processSingleFile h b lang dir) fs))
    = true.
Proof.
  induction bs as [| b bs IH]; intros fs; [reflexivity |].
  rewrite forOf_cons. cbv zeta.
  pose proof (processSingleFile_events h b lang dir fs) as Hb.
  destruct (completion (Index.processSingleFile h b lang dir fs));
    cbn [events]; auto.
  rewrite forallb_app, Hb, IH. reflexivity.
Qed.

Lemma processDirectory_unreadable h lang dir fs err :
  readdir fs dir = inl err ->
  Index.processDirectory h lang dir fs = mkRun [] fs (Thrown err).
Proof.
  intros Hr. unfold Index.processDirectory, bind, readdirSync.
  rewrite Hr. reflexivity.
Qed.

Lemma processDirectory_events h lang dir fs :
  forallb batchEvent (events (Index.processDirectory h lang dir fs)) = true.
Proof.
  destruct (readdir fs dir) as [err | names] eqn:Hr.
  - rewrite (processDirectory_unreadable h lang dir fs err Hr). reflexivity.
  - rewrite (processDirectory_run h lang dir fs names Hr).
    destruct (discover names); [reflexivity | apply forOf_events].
Qed.

Lemma chosenMode_run h argv fs :
  let inner :=
    if truthy (basename argv)
    then Index.processSingleFile h (text (basename argv)) (lang argv) (cwd h) fs
    else Index.processDirectory h (lang argv) (cwd h) fs in
  let announce :=
    if truthy (basename argv)
    then ConsoleLog (MsgManualMode (text (basename argv)))
    else ConsoleLog (MsgAutomaticMode (cwd h)) in
  events (chosenMode h argv fs) = announce :: events inner
  /\ completion (chosenMode h argv fs) = completion inner
  /\ after (chosenMode h argv fs) = after inner
  /\ forallb batchEvent (events inner) = true.
Proof.
  unfold chosenMode. destruct (truthy (basename argv)); cbv zeta;
    unfold bind, console_log, emit; cbn [completion after events app].
  - repeat split. apply processSingleFile_events.
  - repeat split. apply processDirectory_events.
Qed.

Lemma processSingleFile_ends h b lang dir fs :
  let r := Index.processSingleFile h b lang dir fs in
  (completion r = Normal tt /\ existsb isFailed (results (events r)) = false)
  \/ (exists e, completion r = Thrown e
                /\ existsb isFailed (results (events r)) = true).
Proof.
  intros r.
  destruct (processSingleFile_outcomes h b lang dir fs)
    as (_ & _ & _ & _ & [(C & x & Rx & Fx) | (e & C & Fp)]); fold r in C.
  - left. fold r in Rx. rewrite Rx. cbn. rewrite Fx. auto.
  - right. exists e. split; [exact C |].
    apply (failurePrints_failed e _ Fp).
Qed.

Lemma forOf_ends h lang dir bs fs :
  let r := forOf bs (fun b => Index.processSingleFile h b lang dir) fs in
  (completion r = Normal tt /\ existsb isFailed (results (events r)) = false)
  \/ (exists e, completion r = Thrown e
                /\ existsb isFailed (results (events r)) = true).
Proof.
  intros r.
  destruct (forOf_until_failure
              (fun b => Index.processSingleFile h b lang dir) bs
              (processSingleFile_step h lang dir) fs)
    as (_ & [(C & _ & _ & F) | (e & front & fails & C & Rs & _ & _ & Fp)]);
    fold r in C.
  - left. auto.
  - right. exists e. split; [exact C |]. fold r in Rs.
    rewrite Rs, existsb_app.
    destruct (failurePrints_failed e fails Fp) as (Ff & _). rewrite Ff.
    apply orb_true_r.
Qed.

(** How the chosen mode ends: it returns or it throws, and it throws
    exactly when it printed a failure or could not read the directory. *)
Lemma chosenMode_ends h argv fs :
  let b := chosenMode h argv fs in
  let rs := results (events b) in
  (completion b = Normal tt \/ exists e, completion b = Thrown e)
  /\ (completion b = Normal tt -> existsb isFailed rs = false)
  /\ (existsb isFailed rs = true -> exists e, completion b = Thrown e)
  /\ (existsb isFailed rs = false ->
      (truthy (basename argv) = false ->
       exists names, readdir fs (cwd h) = inr names) ->
      completion b = Normal tt).
Proof.
  intros b rs. subst rs b.
  destruct (chosenMode_run h argv fs) as (Ev & C & _ & _).
  rewrite Ev, C. clear Ev C.
  assert (Hres : forall a tl,
             results ((if truthy (basename argv)
                       then ConsoleLog (MsgManualMode (text (basename argv)))
                       else a) :: tl)
             = match (if truthy (basename argv) then None else resultOf a) with
               | Some r => r :: results tl
               | None => results tl
               end)
    by (intros a tl; cbn; destruct (truthy (basename argv)); reflexivity).
  rewrite Hres. clear Hres.
  destruct (truthy (basename argv)) eqn:Ht; cbn [resultOf].
  - destruct (processSingleFile_ends h (text (basename argv)) (lang argv)
                (cwd h) fs) as [(C & F) | (e & C & F)]; rewrite C, F.
    + repeat split; auto. discriminate.
    + split; [right; eauto |]. split; [discriminate |].
      split; [eauto | discriminate].
  - destruct (readdir fs (cwd h)) as [err | names] eqn:Hr.
    + rewrite (processDirectory_unreadable h (lang argv) (cwd h) fs err Hr).
      cbn. split; [right; eauto |]. split; [discriminate |].
      split; [discriminate |].
      intros _ Hn. destruct (Hn eq_refl) as (names & Hn'). discriminate Hn'.
    + rewrite (processDirectory_run h (lang argv) (cwd h) fs names Hr).
      assert (Hb : let r := match discover names with
                            | [] => mkRun [ConsoleLog MsgNoFlacFiles] fs (Normal tt)
                            | _ :: _ =>
                                forOf (discover names)
                                  (fun b => Index.processSingleFile h b (lang argv)
                                              (cwd h)) fs
                            end in
                   (completion r = Normal tt
                    /\ existsb isFailed (results (events r)) = false)
                   \/ (exists e,
                          completion r = Thrown e
                          /\ existsb isFailed (results (events r)) = true)).
      { destruct (discover names) as [| b0 bs] eqn:Ed; [left; auto |].
        apply forOf_ends. }
      cbv zeta in Hb.
      destruct Hb as [(C & F) | (e & C & F)]; rewrite C, F.
      * repeat split; auto. discriminate.
      * split; [right; eauto |]. split; [discriminate |].
        split; [eauto | discriminate].
Qed.

Lemma preflight_silent tr :
  forallb preflightEvent tr = true ->
  results tr = [] /\ itemsStarted tr = 0 /\ spawns tr = [].
Proof.
  induction tr as [| e tr IH]; [auto |].
  cbn [forallb]. intros H. apply andb_true_iff in H. destruct H as (He & Ht).
  destruct (IH Ht) as (R & I & S). unfold itemsStarted in *.
  destruct e as [m | m | f a |]; try destruct m; try discriminate He;
    cbn; auto.
Qed.

(** The two ways [main] can go, behind a pre-flight check that always
    returns. *)
Lemma main_cases h argv fs :
  let pre := Index.ensureFfmpegIsAvailable h fs in
  let r := Index.main h argv fs in
  let b := chosenMode h argv (after pre) in
  exists ready,
    completion pre = Normal ready
    /\ forallb preflightEvent (events pre) = true
    /\ ((ready = false
         /\ events r = events pre /\ completion r = Exited 1%Z)
        \/ (ready = true
            /\ completion r = completion b
            /\ events r
               = (events pre ++ events b
                    ++ match completion b with
                       | Normal _ => [ConsoleLog MsgDone]
                       | _ => []
                       end)%list)).
Proof.
  intros pre r b. subst r. rewrite main_run. fold pre. cbv zeta. fold b.
  destruct (preflight_returns h fs) as (ready & C & E). fold pre in C, E.
  exists ready. rewrite C. split; [reflexivity |]. split; [exact E |].
  destruct ready.
  - right. split; [reflexivity |].
    destruct (chosenMode_ends h argv (after pre)) as ([Cb | (e & Cb)] & _);
      fold b in Cb; rewrite Cb; cbn [events completion].
    + auto.
    + rewrite app_nil_r. auto.
  - left. auto.
Qed.

Lemma main_results h argv fs :
  let pre := Index.ensureFfmpegIsAvailable h fs in
  completion pre = Normal true ->
  results (events (Index.main h argv fs))
  = results (events (chosenMode h argv (after pre)))
  /\ spawns (events (Index.main h argv fs))
     = spawns (events (chosenMode h argv (after pre)))
  /\ itemsStarted (events (Index.main h argv fs))
     = itemsStarted (events (chosenMode h argv (after pre))).
Proof.
  intros pre Hp.
  destruct (main_cases h argv fs)
    as (ready & C & E & [(R & _) | (_ & _ & Ev)]); fold pre in C, E.
  - rewrite Hp in C. congruence.
  - fold pre in Ev. destruct (preflight_silent _ E) as (Rp & Ip & Sp).
    rewrite Ev, !results_app, !spawns_app, !itemsStarted_app, Rp, Ip, Sp.
    destruct (completion (chosenMode h argv (after pre)));
      cbn; rewrite ?app_nil_r, ?Nat.add_0_r; auto.
Qed.

Lemma Done_not_in_batch h argv fs :
  ~ In (ConsoleLog MsgDone) (events (chosenMode h argv fs)).
Proof.
  destruct (chosenMode_run h argv fs) as (Ev & _ & _ & B).
  rewrite Ev. intros [H | H].
  - destruct (truthy (basename argv)); discriminate H.
  - rewrite forallb_forall in B. specialize (B _ H). discriminate B.
Qed.

(** C2, as the code has it.  The pre-flight check always returns.  When it
    fails the program calls [process.exit(1)] before any item is taken up,
    and that is the only call of [process.exit].  A run in which no item
    fails (and whose directory can be read) completes normally and the
    process ends with status 0.  A run in which an item fails does not
    complete normally: the promise of [main] is rejected and left
    unhandled, [Done] is not printed, and the status is the one Node gives
    an unhandled rejection, 1 by default. *)
Theorem main_exit_status h argv fs :
  let pre := Index.ensureFfmpegIsAvailable h fs in
  let r := Index.main h argv fs in
  let failed := existsb isFailed (results (events r)) in
  exists ready,
    completion pre = Normal ready
    /\ (ready = false ->
        completion r = Exited 1%Z
        /\ itemsStarted (events r) = 0
        /\ spawns (events r) = []
        /\ results (events r) = [])
    /\ (forall code, completion r = Exited code -> code = 1%Z /\ ready = false)
    /\ (completion r = Normal tt ->
        failed = false /\ forall mode, exitStatus mode (completion r) = 0%Z)
    /\ (ready = true -> failed = false ->
        (truthy (basename argv) = false ->
         exists names, readdir (after pre) (cwd h) = inr names) ->
        completion r = Normal tt
        /\ forall mode, exitStatus mode (completion r) = 0%Z)
    /\ (failed = true ->
        exists e, completion r = Thrown e
                  /\ ~ In (ConsoleLog MsgDone) (events r)
                  /\ exitStatus nodeDefault (completion r) = 1%Z).
Proof.
  intros pre r failed.
  destruct (main_cases h argv fs)
    as (ready & C & E & [(R & Ev & Cr) | (R & Cr & Ev)]);
    fold pre in C, E, Ev, Cr; fold r in Ev, Cr; exists ready; subst ready;
    (split; [exact C |]).
  - destruct (preflight_silent _ E) as (Rp & Ip & Sp).
    subst failed. rewrite Cr, Ev, Rp, Ip, Sp. cbn.
    repeat split; try congruence; try discriminate.
  - destruct (main_results h argv fs C) as (Rr & _ & _). fold pre r in Rr.
    destruct (chosenMode_ends h argv (after pre)) as (N & NF & FT & FN).
    cbv zeta in N, NF, FT, FN. subst failed. rewrite Rr, Cr.
    split; [discriminate |].
    split; [intros code Hc; destruct N as [N | (e & N)]; congruence |].
    split; [intros Hn; split; [auto | rewrite Hn; reflexivity] |].
    split; [intros _ Hf Hd; rewrite (FN Hf Hd); split; reflexivity |].
    intros Hf. destruct (FT Hf) as (e & Ce). exists e.
    split; [exact Ce |]. split; [| rewrite Ce; reflexivity].
    rewrite Ev, Ce, app_nil_r. intros Hin. apply in_app_or in Hin.
    destruct Hin as [Hin | Hin].
    + rewrite forallb_forall in E. specialize (E _ Hin). discriminate E.
    + exact (Done_not_in_batch h argv (after pre) Hin).
Qed.

Lemma main_exit_status_witness :
  let r := Index.main hostOK (mkArgv None "eng") (installed strayAudio) in
  completion r = Normal tt /\ exitStatus nodeDefault (completion r) = 0%Z.
Proof.
  destruct (main_exit_status hostOK (mkArgv None "eng") (installed strayAudio))
    as (ready & C & _ & _ & _ & H & _).
  assert (R : ready = true) by (vm_compute in C; congruence).
  destruct (H R) as (N & X).
  - reflexivity.
  - intros _. exists (map fst strayAudio). reflexivity.
  - split; [exact N | apply X].
Defined.

(** C2, as the specification words it, fails: with the engine in place, a
    complete item and an engine that exits 1, the run does not complete
    normally, and under Node's default the process ends with status 1
    although the pre-flight check passed. *)
Lemma main_failed_item_exits_1 :
  let fs := installed songs in
  let r := Index.main hostKO (mkArgv None "chi") fs in
  completion (Index.ensureFfmpegIsAvailable hostKO fs) = Normal true
  /\ results (events r) = [Failed "a.flac" (NonZeroExit (Some 1%Z))]
  /\ completion r = Thrown (NewError "FFmpeg error")
  /\ exitStatus nodeDefault (completion r) = 1%Z.
Proof. repeat split; reflexivity. Qed.

(** C7: in automatic mode, behind a passed pre-flight check, a directory
    with no [.flac] match makes the run print that nothing was found and
    [Done], take up no item, invoke the engine never, and end normally
    with status 0. *)
Theorem main_nothing_found h argv fs names :
  let pre := Index.ensureFfmpegIsAvailable h fs in
  completion pre = Normal true ->
  truthy (basename argv) = false ->
  readdir (after pre) (cwd h) = inr names ->
  filter Index.isFlac names = [] ->
  let r := Index.main h argv fs in
  events r
  = (events pre
       ++ [ConsoleLog (MsgAutomaticMode (cwd h)); ConsoleLog MsgNoFlacFiles;
           ConsoleLog MsgDone])%list
  /\ Index.processDirectory h (lang argv) (cwd h) (after pre)
     = mkRun [ConsoleLog MsgNoFlacFiles] (after pre) (Normal tt)
  /\ itemsStarted (events r) = 0
  /\ spawns (events r) = []
  /\ completion r = Normal tt
  /\ forall mode, exitStatus mode (completion r) = 0%Z.
Proof.
  intros pre Hp Ht Hr Hf r.
  assert (Hd : Index.processDirectory h (lang argv) (cwd h) (after pre)
               = mkRun [ConsoleLog MsgNoFlacFiles] (after pre) (Normal tt)).
  { rewrite (processDirectory_run h (lang argv) (cwd h) (after pre) names Hr).
    unfold discover. rewrite Hf. reflexivity. }
  destruct (chosenMode_run h argv (after pre)) as (Ev & C & _ & _).
  rewrite Ht, Hd in Ev, C. cbn [events completion] in Ev, C.
  destruct (main_cases h argv fs)
    as (ready & Cp & E & [(R & _) | (_ & Cr & Er)]); fold pre in Cp, E.
  - rewrite Hp in Cp. congruence.
  - fold pre r in Er, Cr. rewrite C in Er, Cr. rewrite Ev in Er.
    destruct (preflight_silent _ E) as (_ & Ip & Sp).
    rewrite Er, Cr, itemsStarted_app, spawns_app, Ip, Sp.
    repeat split; auto.
Qed.

Lemma main_nothing_found_witness :
  let r := Index.main hostOK (mkArgv None "chi")
             (installed [("cover.jpg", RegularFile); ("notes.txt", RegularFile)]) in
  events r
  = [ConsoleLog (MsgAutomaticMode "/music"); ConsoleLog MsgNoFlacFiles;
     ConsoleLog MsgDone]
  /\ spawns (events r) = []
  /\ exitStatus nodeDefault (completion r) = 0%Z.
Proof.
  destruct (main_nothing_found hostOK (mkArgv None "chi")
              (installed [("cover.jpg", RegularFile); ("notes.txt", RegularFile)])
              ["cover.jpg"; "notes.txt"] eq_refl eq_refl eq_refl eq_refl)
    as (Ev & _ & _ & S & _ & X).
  split; [exact Ev |]. split; [exact S | apply X].
Defined.

(** ** Strings and paths *)

Section StringFacts.

Lemma append_assoc (a b c : string) : (a ++ b) ++ c = a ++ (b ++ c).
Proof. induction a as [| x a IH]; cbn; [reflexivity | now rewrite IH]. Qed.

Lemma append_nil_r (a : string) : a ++ "" = a.
Proof. induction a as [| x a IH]; cbn; [reflexivity | now rewrite IH]. Qed.

Lemma length_append (a b : string) : length (a ++ b) = length a + length b.
Proof. induction a as [| x a IH]; cbn; [reflexivity | now rewrite IH]. Qed.

Lemma take_drop n (s : string) : Str.take n s ++ Str.drop n s = s.
Proof.
  revert s. induction n as [| n IH]; intros [| c s]; cbn; try reflexivity.
  now rewrite IH.
Qed.

Lemma length_drop n (s : string) : length (Str.drop n s) = length s - n.
Proof.
  revert s. induction n as [| n IH]; intros [| c s]; cbn; auto.
Qed.

Lemma length_take n (s : string) : length (Str.take n s) = Nat.min n (length s).
Proof.
  revert s. induction n as [| n IH]; intros [| c s]; cbn; auto.
Qed.

Lemma take_all n (s : string) : length s <= n -> Str.take n s = s.
Proof.
  revert s. induction n as [| n IH]; intros [| c s]; cbn; intros H;
    try reflexivity; try lia.
  rewrite IH; [reflexivity | lia].
Qed.

Lemma lastDot_lt (s : string) i : Str.lastDot s = Some i -> i < length s.
Proof.
  revert i. induction s as [| c s IH]; cbn; intros i H; [discriminate |].
  destruct (Str.lastDot s) as [j |].
  - injection H as <-. specialize (IH j eq_refl). lia.
  - destruct (Str.isDot c); [injection H as <-; lia | discriminate].
Qed.

Lemma split_noSlash (s : string) : noSlash s = true -> Str.split s = [s].
Proof.
  induction s as [| c s IH]; cbn; [reflexivity |].
  intros H. apply andb_true_iff in H. destruct H as (Hc & Hs).
  apply negb_true_iff in Hc. rewrite Hc, (IH Hs). reflexivity.
Qed.

Lemma lastPortion_noSlash (s : string) :
  noSlash s = true -> Path.lastPortion s = s.
Proof.
  intros H. unfold Path.lastPortion. rewrite (split_noSlash s H). cbn.
  destruct s; reflexivity.
Qed.

(** The last segment of a path takes what is appended, when that has no
    separator. *)
Lemma split_append (s ext : string) :
  noSlash ext = true ->
  Str.split (s ++ ext)
  = (removelast (Str.split s) ++ [(last (Str.split s) "" ++ ext)%string])%list.
Proof.
  intros He. induction s as [| c s IH].
  - cbn. apply split_noSlash. exact He.
  - cbn [append Str.split]. rewrite IH.
    assert (Hne : Str.split s <> []) by (destruct s as [| x s]; cbn;
      [discriminate | destruct (Str.isSlash x); [discriminate |];
       destruct (Str.split s); discriminate]).
    destruct (Str.isSlash c).
    + destruct (Str.split s) as [| h t] eqn:Es; [congruence |].
      cbn [removelast last]. destruct t; reflexivity.
    + destruct (Str.split s) as [| h t] eqn:Es; [congruence |].
      destruct t as [| h' t']; reflexivity.
Qed.

Lemma plainExt_noSlash ext : plainExt ext = true -> noSlash ext = true.
Proof.
  destruct ext as [| d [| c rest]]; cbn; try discriminate.
  intros H. apply andb_true_iff in H. destruct H as (H1 & H2).
  apply andb_true_iff in H1. destruct H1 as (Hd & _).
  unfold Str.isDot in Hd. apply Ascii.eqb_eq in Hd. subst d.
  cbn. exact H2.
Qed.

(** A segment that ends in an extension is a name: not empty, not ['.'],
    not ['..']. *)
Lemma segment_with_ext l ext :
  plainExt ext = true ->
  (l ++ ext =? "") = false /\ (l ++ ext =? ".") = false
  /\ (l ++ ext =? "..") = false.
Proof.
  destruct ext as [| d [| c rest]]; cbn; try discriminate.
  intros H. apply andb_true_iff in H. destruct H as (H1 & _).
  apply andb_true_iff in H1. destruct H1 as (Hd & Hc).
  apply negb_true_iff in Hc. unfold Str.isDot in Hd, Hc.
  apply Ascii.eqb_eq in Hd. subst d.
  destruct l as [| x [| y l]]; cbn.
  - rewrite Hc. auto.
  - repeat split; destruct (Ascii.eqb x "."); auto.
  - repeat split; destruct (Ascii.eqb x "."); auto;
      destruct (Ascii.eqb y "."); auto;
      destruct l; reflexivity.
Qed.

Lemma joinSlash_snoc front l ext :
  Str.joinSlash (front ++ [(l ++ ext)%string])%list
  = Str.joinSlash (front ++ [l])%list ++ ext.
Proof.
  induction front as [| a front IH]; [reflexivity |].
  cbn [app Str.joinSlash].
  destruct (front ++ [(l ++ ext)%string])%list eqn:E1;
    [destruct front; discriminate E1 |].
  destruct (front ++ [l])%list eqn:E2; [destruct front; discriminate E2 |].
  rewrite <- E1, <- E2 in *. rewrite IH, !append_assoc. reflexivity.
Qed.

Lemma startsWithSlash_append s ext :
  plainExt ext = true ->
  Str.startsWithSlash (s ++ ext) = Str.startsWithSlash s.
Proof.
  destruct s as [| c s]; [| reflexivity].
  destruct ext as [| d [| c rest]]; cbn; try discriminate.
  intros H. apply andb_true_iff in H. destruct H as (H1 & _).
  apply andb_true_iff in H1. destruct H1 as (Hd & _).
  unfold Str.isDot in Hd. apply Ascii.eqb_eq in Hd. subst d. reflexivity.
Qed.

Lemma endsWithSlash_noSlash ext :
  noSlash ext = true -> Str.endsWithSlash ext = false.
Proof.
  induction ext as [| c ext IH]; [reflexivity |].
  cbn [noSlash]. intros H. apply andb_true_iff in H. destruct H as (Hc & He).
  apply negb_true_iff in Hc. cbn. destruct ext; [exact Hc | exact (IH He)].
Qed.

Lemma endsWithSlash_append s ext :
  ext <> "" -> Str.endsWithSlash (s ++ ext) = Str.endsWithSlash ext.
Proof.
  intros He. induction s as [| c s IH]; [reflexivity |].
  cbn [append Str.endsWithSlash].
  destruct (s ++ ext) eqn:E; [| exact IH].
  destruct s; cbn in E; [congruence | discriminate].
Qed.

Lemma append_nonempty (s ext : string) : ext <> "" -> (s ++ ext =? "") = false.
Proof.
  intros He. apply String.eqb_neq. destruct s; cbn; [exact He | discriminate].
Qed.

(** The derived path is the stem of the join, then the extension. *)
Lemma join_with_ext dir b ext :
  plainExt ext = true ->
  Path.join dir (b ++ ext) = joinedStem dir b ++ ext.
Proof.
  intros He.
  assert (Hn : noSlash ext = true) by (apply plainExt_noSlash; exact He).
  assert (Hne : ext <> "") by (destruct ext; [discriminate He | discriminate]).
  unfold Path.join, joinedStem.
  set (joined := if dir =? "" then b else dir ++ "/" ++ b).
  assert (Ej : (if dir =? "" then b ++ ext
                else if b ++ ext =? "" then dir else dir ++ "/" ++ b ++ ext)
               = joined ++ ext).
  { subst joined. destruct (dir =? ""); [reflexivity |].
    rewrite (append_nonempty b ext Hne), !append_assoc. reflexivity. }
  rewrite Ej. unfold Path.normalize.
  rewrite (append_nonempty joined ext Hne).
  rewrite (startsWithSlash_append joined ext He).
  rewrite (endsWithSlash_append joined ext Hne), (endsWithSlash_noSlash ext Hn).
  rewrite (split_append joined ext Hn).
  unfold Path.normalizeSegments. rewrite fold_left_app. cbn [fold_left].
  destruct (segment_with_ext (last (Str.split joined) "") ext He)
    as (N1 & N2 & N3).
  assert (Hstep : forall allow stack,
             Path.normStep allow stack (last (Str.split joined) "" ++ ext)
             = (last (Str.split joined) "" ++ ext) :: stack)
    by (intros allow stack; unfold Path.normStep;
        rewrite N1, N2, N3; reflexivity).
  rewrite Hstep. cbn [rev].
  rewrite joinSlash_snoc, (append_nonempty _ ext Hne), append_nil_r.
  rewrite !append_assoc. reflexivity.
Qed.

End StringFacts.

(** ** Discovery *)

Lemma append_inv_head (p a b : string) : p ++ a = p ++ b -> a = b.
Proof.
  induction p as [| c p IH]; cbn; [auto |]. intros [= H]. exact (IH H).
Qed.

(** A matching entry is its stem followed by its extension, and the base
    name the code computes for it is that stem. *)
Lemma isFlac_stem f :
  noSlash f = true ->
  Index.isFlac f = true ->
  f = stem f ++ Path.extname f
  /\ Path.basename f (Some (Path.extname f)) = stem f
  /\ stem f <> "".
Proof.
  intros Hn Hf. unfold Index.isFlac in Hf. apply String.eqb_eq in Hf.
  unfold stem, Path.basename. unfold Path.extname in *.
  rewrite (lastPortion_noSlash f Hn) in *.
  destruct (Str.lastDot f) as [[| i] |] eqn:Hd; try discriminate Hf.
  destruct (f =? "..") eqn:Hdd; [discriminate Hf |].
  pose proof (lastDot_lt f (S i) Hd) as Hlt.
  assert (He : Str.slice f (S i) (length f) = Str.drop (S i) f).
  { unfold Str.slice. apply take_all. rewrite length_drop. lia. }
  rewrite He in *. clear He.
  assert (Hl : length (Str.drop (S i) f) = length f - S i)
    by apply length_drop.
  replace (length f - length (Str.drop (S i) f)) with (S i) by lia.
  assert (Hs : (Str.take (S i) f =? "") = false)
    by (destruct f; [cbn in Hlt; lia | reflexivity]).
  split; [symmetry; apply take_drop |]. split.
  - assert (E1 : (Str.drop (S i) f =? "") = false).
    { apply String.eqb_neq. intros E. rewrite E in Hl. cbn in Hl. lia. }
    assert (E2 : (Str.drop (S i) f =? f) = false).
    { apply String.eqb_neq. intros E. rewrite E in Hl. lia. }
    rewrite E1, E2. unfold Path.stripSuffix.
    replace (length f - length (Str.drop (S i) f)) with (S i) by lia.
    rewrite String.eqb_refl.
    replace (length (Str.drop (S i) f) <=? length f)%nat with true
      by (symmetry; apply Nat.leb_le; lia).
    cbn [andb]. rewrite Hs. reflexivity.
  - apply String.eqb_neq. exact Hs.
Qed.

Lemma count_occ_stems (P : string -> bool) b names :
  count_occ string_dec (map stem (filter P names)) b
  = List.length (filter (fun f => P f && (stem f =? b)) names).
Proof.
  induction names as [| f names IH]; [reflexivity |].
  cbn [filter]. destruct (P f); cbn [andb map]; [| exact IH].
  destruct (string_dec (stem f) b) as [E | E].
  - rewrite (count_occ_cons_eq string_dec _ E), IH.
    apply String.eqb_eq in E. rewrite E. reflexivity.
  - rewrite (count_occ_cons_neq string_dec _ E), IH.
    apply String.eqb_neq in E. rewrite E. reflexivity.
Qed.

(** C4, as the code has it: for the entry names of a directory, discovery
    gives the stems (name less extension) of the entries whose extension
    is [.flac] in any letter case, one per matching entry and in listing
    order; other entries give nothing; only the listing of the directory
    itself is read.  A base name comes once for each matching entry that
    has it, so twice when two entries differ in the case of the extension
    only. *)
Theorem discover_lists_flac_stems names :
  Forall (fun f => noSlash f = true) names ->
  discover names = map stem (filter Index.isFlac names)
  /\ (forall f, In f (filter Index.isFlac names) <->
                In f names /\ Str.toLowerCase (Path.extname f) = ".flac")
  /\ (forall f, In f (filter Index.isFlac names) ->
                f = stem f ++ Path.extname f /\ stem f <> "")
  /\ List.length (discover names) = List.length (filter Index.isFlac names)
  /\ (forall b, count_occ string_dec (discover names) b
                = List.length
                    (filter (fun f => Index.isFlac f && (stem f =? b)) names))
  /\ (forall h lang dir fs,
         readdir fs dir = inr names -> discover names <> [] ->
         Index.processDirectory h lang dir fs
         = forOf (discover names)
             (fun b => Index.processSingleFile h b lang dir) fs).
Proof.
  intros Hn. rewrite Forall_forall in Hn.
  assert (Hd : discover names = map stem (filter Index.isFlac names)).
  { unfold discover. apply map_ext_in. intros f Hf.
    apply filter_In in Hf. destruct Hf as (Hin & Hf).
    apply (isFlac_stem f (Hn f Hin) Hf). }
  split; [exact Hd |]. split.
  { intros f. rewrite filter_In. unfold Index.isFlac.
    rewrite String.eqb_eq. tauto. }
  split.
  { intros f Hf. apply filter_In in Hf. destruct Hf as (Hin & Hf).
    destruct (isFlac_stem f (Hn f Hin) Hf) as (E & _ & N). auto. }
  split; [unfold discover; apply length_map |]. split.
  { intros b. rewrite Hd. apply count_occ_stems. }
  intros h lang dir fs Hr Hne.
  rewrite (processDirectory_run h lang dir fs names Hr).
  destruct (discover names); [congruence | reflexivity].
Qed.

Lemma discover_lists_flac_stems_witness :
  discover ["a.flac"; "a.jpg"; "a.lrc"; "b.FLAC"; "notes.txt"] = ["a"; "b"]
  /\ count_occ string_dec
       (discover ["a.flac"; "a.jpg"; "a.lrc"; "b.FLAC"; "notes.txt"]) "a" = 1.
Proof.
  assert (Hn : Forall (fun f => noSlash f = true)
                 ["a.flac"; "a.jpg"; "a.lrc"; "b.FLAC"; "notes.txt"])
    by (repeat constructor).
  destruct (discover_lists_flac_stems _ Hn) as (D & _ & _ & _ & C & _).
  split; [rewrite D; reflexivity | rewrite C; reflexivity].
Defined.

(** C4, as the specification words it, fails: two entries of one directory
    that differ in the case of the extension give the same base name, and
    discovery returns it twice. *)
Lemma discover_repeats_base_name :
  NoDup (map fst mixedCase)
  /\ discover (map fst mixedCase) = ["a"; "a"]
  /\ count_occ string_dec (discover (map fst mixedCase)) "a" = 2
  /\ ~ NoDup (discover (map fst mixedCase)).
Proof.
  split.
  { repeat constructor; cbn; intuition discriminate. }
  split; [reflexivity |]. split; [reflexivity |].
  intros H. change (discover (map fst mixedCase)) with ["a"; "a"] in H.
  inversion H as [| x l Hin _]; subst. apply Hin. left. reflexivity.
Qed.

(** ** Conversion items *)

(** C8, as the code has it: the four derived paths are what [path.join]
    makes of the directory and the base name with the extension of the
    role; they are one string up to that extension, so they share directory
    and base name.  The item counts as complete, and the engine is
    invoked, iff something exists at each of the three input paths:
    [fs.existsSync] does not ask what kind of entry it is. *)
Theorem derived_paths_and_completeness h b lang dir fs :
  let p := pathsOf ".lrc" dir b in
  let r := Index.processSingleFile h b lang dir fs in
  Index.processSingleFile h b lang dir
  = processItemWith ".lrc" (Index.runFfmpeg h) b lang dir
  /\ (audioPath p = Path.join dir (b ++ ".flac")
      /\ imagePath p = Path.join dir (b ++ ".jpg")
      /\ subtitlePath p = Path.join dir (b ++ ".lrc")
      /\ outputPath p = Path.join dir (b ++ ".m4a"))
  /\ (audioPath p = joinedStem dir b ++ ".flac"
      /\ imagePath p = joinedStem dir b ++ ".jpg"
      /\ subtitlePath p = joinedStem dir b ++ ".lrc"
      /\ outputPath p = joinedStem dir b ++ ".m4a")
  /\ (spawns (events r) = [(ffmpegPath h, engineArgs p lang)]
      <-> present fs (audioPath p) = true
          /\ present fs (imagePath p) = true
          /\ present fs (subtitlePath p) = true)
  /\ (r = mkRun [ConsoleLog (MsgSkipping b)] fs (Normal tt)
      <-> present fs (audioPath p) = false
          \/ present fs (imagePath p) = false
          \/ present fs (subtitlePath p) = false).
Proof.
  intros p r.
  split; [reflexivity |]. split; [repeat split |]. split.
  { unfold p, pathsOf. cbn [audioPath imagePath subtitlePath outputPath].
    repeat split; apply join_with_ext; reflexivity. }
  rewrite <- complete_true, <- complete_false. subst r.
  destruct (complete fs p) eqn:Hc.
  - rewrite (processSingleFile_complete h b lang dir fs Hc). fold p.
    cbn [events].
    destruct (invokerRun_cases h (audioPath p) (imagePath p) (subtitlePath p)
                (outputPath p) lang fs)
      as [(_ & Ev & _) | [(code & _ & _ & Ev & _) | (err & errno & _ & Ev & _)]];
      rewrite Ev; cbn; (split; split; intros H; try reflexivity;
                        try discriminate H).
  - rewrite (processSingleFile_incomplete h b lang dir fs Hc). cbn.
    split; split; intros H; try reflexivity; try discriminate H.
Qed.

(** C8, as the specification words it, fails: with a directory where the
    cover should be, no regular file is at the image path, yet the item
    counts as complete and the engine is invoked. *)
Lemma directory_counts_as_input :
  let fs := installed coverIsDirectory in
  let r := Index.processSingleFile hostOK "a" "chi" "/music" fs in
  stat fs "/music/a.jpg" = Some Directory
  /\ regularFile fs (imagePath (pathsOf ".lrc" "/music" "a")) = false
  /\ List.length (spawns (events r)) = 1
  /\ results (events r) = [Converted "a.m4a"].
Proof. repeat split; reflexivity. Qed.

(** ** The two variants *)

(** C9: the item processors of the two variants are one processor up to
    the subtitle extension.  Both derive the same audio, image and output
    paths, both build the argument list of section 6 from their paths, and
    the two lists differ at the subtitle input only, [.lrc] in [index.js]
    and [.lyc] in the other variant. *)
Theorem variants_differ_in_subtitle_extension h b lang dir :
  let p1 := pathsOf ".lrc" dir b in
  let p2 := pathsOf ".lyc" dir b in
  Index.processSingleFile h b lang dir
  = processItemWith ".lrc" (Index.runFfmpeg h) b lang dir
  /\ Part000.processSingleFile h b lang dir
     = processItemWith ".lyc" (Part000.runFfmpeg h) b lang dir
  /\ (forall fs,
         spawns (events (Index.runFfmpeg h (audioPath p1) (imagePath p1)
                           (subtitlePath p1) (outputPath p1) lang fs))
         = [(ffmpegPath h, engineArgs p1 lang)]
         /\ spawns (events (Part000.runFfmpeg h (audioPath p2) (imagePath p2)
                              (subtitlePath p2) (outputPath p2) lang fs))
            = [(ffmpegPath h, engineArgs p2 lang)])
  /\ audioPath p1 = audioPath p2
  /\ imagePath p1 = imagePath p2
  /\ outputPath p1 = outputPath p2
  /\ subtitlePath p1 = Path.join dir (b ++ ".lrc")
  /\ subtitlePath p2 = Path.join dir (b ++ ".lyc")
  /\ subtitlePath p1 <> subtitlePath p2
  /\ (forall k, k <> 5 ->
                nth k (engineArgs p1 lang) "" = nth k (engineArgs p2 lang) "")
  /\ nth 5 (engineArgs p1 lang) "" = subtitlePath p1
  /\ nth 5 (engineArgs p2 lang) "" = subtitlePath p2.
Proof.
  intros p1 p2.
  split; [reflexivity |]. split; [reflexivity |]. split.
  { intros fs. rewrite runFfmpeg_run, runFfmpeg_variant. split.
    - destruct (invokerRun_cases h (audioPath p1) (imagePath p1)
                  (subtitlePath p1) (outputPath p1) lang fs)
        as [(_ & Ev & _) | [(code & _ & _ & Ev & _) | (err & errno & _ & Ev & _)]];
        rewrite Ev; reflexivity.
    - destruct (invokerRun_cases h (audioPath p2) (imagePath p2)
                  (subtitlePath p2) (outputPath p2) lang fs)
        as [(_ & Ev & _) | [(code & _ & _ & Ev & _) | (err & errno & _ & Ev & _)]];
        rewrite Ev; reflexivity. }
  repeat (split; [reflexivity |]). split.
  { unfold p1, p2, pathsOf. cbn [subtitlePath].
    rewrite (join_with_ext dir b ".lrc" eq_refl).
    rewrite (join_with_ext dir b ".lyc" eq_refl).
    intros E. apply append_inv_head in E. discriminate E. }
  split; [| split; reflexivity].
  intros k Hk. unfold engineArgs.
  do 5 (destruct k as [| k]; [reflexivity |]).
  destruct k as [| k]; [congruence |].
  do 19 (destruct k as [| k]; [reflexivity |]).
  destruct k; reflexivity.
Qed.

(** ** Mode selection *)

(** C10: an empty string as the positional argument is falsy, so the run
    is the run without the argument: automatic mode, a scan of the
    directory.  Manual mode is announced only for a base name that is
    there and not empty, and for every such base name once the pre-flight
    check has passed. *)
Theorem empty_basename_runs_automatic h tag fs :
  let pre := Index.ensureFfmpegIsAvailable h fs in
  let r := Index.main h (mkArgv (Some "") tag) fs in
  let scan := Index.processDirectory h tag (cwd h) (after pre) in
  r = Index.main h (mkArgv None tag) fs
  /\ (completion pre = Normal true ->
      events r
      = (events pre ++ ConsoleLog (MsgAutomaticMode (cwd h)) :: events scan
           ++ match completion scan with
              | Normal _ => [ConsoleLog MsgDone]
              | _ => []
              end)%list)
  /\ (forall argv b,
         In (ConsoleLog (MsgManualMode b)) (events (Index.main h argv fs)) ->
         basename argv = Some b /\ b <> "")
  /\ (forall b, b <> "" -> completion pre = Normal true ->
         exists rest,
           events (Index.main h (mkArgv (Some b) tag) fs)
           = (events pre ++ ConsoleLog (MsgManualMode b)
                :: events (Index.processSingleFile h b tag (cwd h) (after pre))
                ++ rest)%list).
Proof.
  intros pre r scan. split; [reflexivity |]. split.
  { intros Hp.
    destruct (main_cases h (mkArgv (Some "") tag) fs)
      as (ready & C & _ & [(R & _) | (_ & Cr & Ev)]); fold pre in C.
    - rewrite Hp in C. congruence.
    - fold pre r in Ev.
      destruct (chosenMode_run h (mkArgv (Some "") tag) (after pre))
        as (Eb & Cb & _ & _).
      cbn [basename truthy String.eqb negb lang] in Eb, Cb. fold scan in Eb, Cb.
      rewrite Ev, Eb, Cb. reflexivity. }
  split.
  { intros argv b Hin.
    destruct (main_cases h argv fs)
      as (ready & _ & E & [(_ & Ev & _) | (_ & _ & Ev)]);
      fold pre in E, Ev; rewrite Ev in Hin.
    - rewrite forallb_forall in E. specialize (E _ Hin). discriminate E.
    - apply in_app_or in Hin. destruct Hin as [Hin | Hin].
      { rewrite forallb_forall in E. specialize (E _ Hin). discriminate E. }
      apply in_app_or in Hin. destruct Hin as [Hin | Hin].
      + destruct (chosenMode_run h argv (after pre)) as (Eb & _ & _ & B).
        rewrite Eb in Hin. destruct Hin as [Hin | Hin].
        * destruct (basename argv) as [s |]; cbn in Hin;
            [| discriminate Hin].
          destruct (s =? "") eqn:Es; cbn in Hin; [discriminate Hin |].
          injection Hin as <-. apply String.eqb_neq in Es. auto.
        * rewrite forallb_forall in B. specialize (B _ Hin). discriminate B.
      + destruct (completion (chosenMode h argv (after pre)));
          cbn in Hin; intuition discriminate. }
  intros b Hb Hp.
  destruct (main_cases h (mkArgv (Some b) tag) fs)
    as (ready & C & _ & [(R & _) | (_ & _ & Ev)]); fold pre in C.
  - rewrite Hp in C. congruence.
  - fold pre in Ev.
    destruct (chosenMode_run h (mkArgv (Some b) tag) (after pre))
      as (Eb & _ & _ & _).
    apply String.eqb_neq in Hb.
    cbn [basename truthy lang text] in Eb. rewrite Hb in Eb. cbn [negb] in Eb.
    rewrite Ev, Eb. eexists. reflexivity.
Qed.

Lemma empty_basename_runs_automatic_witness :
  events (Index.main hostOK (mkArgv (Some "") "chi")
            (installed [("cover.jpg", RegularFile)]))
  = [ConsoleLog (MsgAutomaticMode "/music"); ConsoleLog MsgNoFlacFiles;
     ConsoleLog MsgDone].
Proof.
  destruct (empty_basename_runs_automatic hostOK "chi"
              (installed [("cover.jpg", RegularFile)])) as (_ & H & _).
  rewrite (H eq_refl). reflexivity.
Defined.

(** ** The end-to-end scenarios of the specification *)

(** [a] is complete, [b] is a stray audio file: one conversion, one skip,
    one engine invocation, with the language tag as given. *)
Example scenario_stray_audio :
  let r := Index.main hostOK (mkArgv None "eng") (installed strayAudio) in
  discover (map fst strayAudio) = ["a"; "b"]
  /\ results (events r) = [Converted "a.m4a"; Skipped "b"]
  /\ List.length (spawns (events r)) = 1
  /\ (forall file args, In (file, args) (spawns (events r)) ->
                        In "language=eng" args)
  /\ completion r = Normal tt.
Proof.
  repeat split.
  intros file args [[= <- <-] | []]. cbn. tauto.
Qed.

(** Manual mode for a base name with no files. *)
Example scenario_missing :
  let r := Index.main hostOK (mkArgv (Some "missing") "chi")
             (installed strayAudio) in
  results (events r) = [Skipped "missing"]
  /\ spawns (events r) = []
  /\ exitStatus nodeDefault (completion r) = 0%Z.
Proof. repeat split. Qed.

(** An engine that cannot be started: both handlers print, and the launch
    failure ends the batch as a non-zero exit does. *)
Example scenario_launch_failure :
  let host := machine "/opt/ffmpeg" "/music"
                (fun _ => SpawnError (SystemError "EACCES") 13) in
  let r := Index.main host (mkArgv None "chi") (installed songs) in
  results (events r)
  = [Failed "a.flac" (LaunchFailed (SystemError "EACCES"));
     Failed "a.flac" (NonZeroExit (Some (-13)%Z))]
  /\ itemsStarted (events r) = 1
  /\ List.length (spawns (events r)) = 1
  /\ completion r = Thrown (SystemError "EACCES").
Proof. repeat split. Qed.

(** * Further properties of the code *)

(** ** The pre-flight check *)

(** X1: [ensureFfmpegIsAvailable] never throws and never ends the process:
    an exception of the install script is caught.  It answers [true] iff
    the binary is there or the install script ran through; it tries the
    script once, and only when the binary is missing; it does not look for
    the binary again behind a script that ran through.  It invokes no
    engine. *)
Theorem ensureFfmpegIsAvailable_answers h fs :
  let r := Index.ensureFfmpegIsAvailable h fs in
  exists ready,
    completion r = Normal ready
    /\ (ready = true <->
        present fs (ffmpegPath h) = true \/ fst (installer h fs) = None)
    /\ installs (events r) = (if present fs (ffmpegPath h) then 0 else 1)
    /\ (present fs (ffmpegPath h) = true -> events r = [] /\ after r = fs)
    /\ (present fs (ffmpegPath h) = false -> after r = snd (installer h fs))
    /\ spawns (events r) = []
    /\ results (events r) = [].
Proof.
  intros r. subst r. rewrite ensureFfmpegIsAvailable_run. unfold preflightRun.
  destruct (present fs (ffmpegPath h)) eqn:Hp.
  - exists true. cbn. repeat split; auto; discriminate.
  - destruct (fst (installer h fs)) as [err |] eqn:Hi.
    + exists false. cbn. repeat split; auto; try discriminate.
      intros [H | H]; discriminate H.
    + exists true. cbn. repeat split; auto; discriminate.
Qed.

(** ** The end of a run *)

(** X2: [Done] is printed exactly when [main] completes normally, and
    then once, as the last thing printed. *)
Theorem main_prints_done_iff_normal h argv fs :
  let r := Index.main h argv fs in
  (In (ConsoleLog MsgDone) (events r) <-> completion r = Normal tt)
  /\ (completion r = Normal tt ->
      exists tr, events r = (tr ++ [ConsoleLog MsgDone])%list
                 /\ ~ In (ConsoleLog MsgDone) tr).
Proof.
  intros r.
  destruct (main_cases h argv fs)
    as (ready & _ & E & [(_ & Ev & C) | (_ & C & Ev)]); fold r in Ev, C.
  - rewrite Ev, C. split; [split |]; try discriminate.
    intros Hin. rewrite forallb_forall in E. specialize (E _ Hin).
    discriminate E.
  - assert (Hno : ~ In (ConsoleLog MsgDone)
                    (events (Index.ensureFfmpegIsAvailable h fs)
                       ++ events (chosenMode h argv
                                    (after (Index.ensureFfmpegIsAvailable h fs))))%list).
    { intros Hin. apply in_app_or in Hin. destruct Hin as [Hin | Hin].
      - rewrite forallb_forall in E. specialize (E _ Hin). discriminate E.
      - exact (Done_not_in_batch h argv _ Hin). }
    rewrite Ev, C.
    destruct (completion (chosenMode h argv
                (after (Index.ensureFfmpegIsAvailable h fs)))) as [[] | e | c].
    + rewrite app_assoc. split; [split; [reflexivity |] |].
      * intros _. apply in_or_app. right. left. reflexivity.
      * intros _. eexists. split; [reflexivity | exact Hno].
    + rewrite app_nil_r. split; [split |]; try discriminate.
      intros Hin. destruct (Hno Hin).
    + rewrite app_nil_r. split; [split |]; try discriminate.
      intros Hin. destruct (Hno Hin).
Qed.

(** X3: in automatic mode a directory that cannot be listed ends the run
    with the error of [fs.readdirSync]: the mode is announced, no item is
    taken up, nothing is reported as found or not found, [Done] is not
    printed, and the promise of [main] is rejected with that error. *)
Theorem main_unreadable_directory h argv fs err :
  let pre := Index.ensureFfmpegIsAvailable h fs in
  completion pre = Normal true ->
  truthy (basename argv) = false ->
  readdir (after pre) (cwd h) = inl err ->
  let r := Index.main h argv fs in
  events r = (events pre ++ [ConsoleLog (MsgAutomaticMode (cwd h))])%list
  /\ completion r = Thrown err
  /\ itemsStarted (events r) = 0
  /\ spawns (events r) = []
  /\ exitStatus nodeDefault (completion r) = 1%Z.
Proof.
  intros pre Hp Ht Hr r.
  destruct (chosenMode_run h argv (after pre)) as (Eb & Cb & _ & _).
  rewrite Ht in Eb, Cb.
  rewrite (processDirectory_unreadable h (lang argv) (cwd h) (after pre) err Hr)
    in Eb, Cb.
  cbn [events completion] in Eb, Cb.
  destruct (main_cases h argv fs)
    as (ready & C & E & [(R & _) | (_ & Cr & Ev)]); fold pre in C, E.
  - rewrite Hp in C. congruence.
  - fold pre r in Ev, Cr. rewrite Cb in Ev, Cr. rewrite Eb, app_nil_r in Ev.
    destruct (preflight_silent _ E) as (_ & Ip & Sp).
    rewrite Ev, Cr, itemsStarted_app, spawns_app, Ip, Sp.
    repeat split.
Qed.

Lemma main_unreadable_directory_witness :
  let r := Index.main hostAstray (mkArgv None "chi") (installed songs) in
  events r = [ConsoleLog (MsgAutomaticMode "/gone")]
  /\ completion r = Thrown (SystemError "ENOENT").
Proof.
  destruct (main_unreadable_directory hostAstray (mkArgv None "chi")
              (installed songs) (SystemError "ENOENT") eq_refl eq_refl eq_refl)
    as (Ev & C & _).
  split; [exact Ev | exact C].
Defined.



(** ** Engine invocations over a whole run *)

Lemma forOf_Forall {A : Type} (P : A -> Event -> Prop) (body : A -> M unit) bs :
  (forall b fs, Forall (P b) (events (body b fs))) ->
  forall fs,
    Forall (fun e => exists b, In b bs /\ P b e) (events (forOf bs body fs)).
Proof.
  intros Hbody. induction bs as [| b bs IH]; intros fs; [constructor |].
  rewrite forOf_cons. cbv zeta.
  assert (Hb : Forall (fun e => exists b0, In b0 (b :: bs) /\ P b0 e)
                 (events (body b fs))).
  { eapply Forall_impl; [| apply Hbody]. intros e He. exists b.
    split; [left; reflexivity | exact He]. }
  destruct (completion (body b fs)); cbn [events]; auto.
  apply Forall_app. split; [exact Hb |].
  eapply Forall_impl; [| apply IH]. intros e (b0 & Hin & He).
  exists b0. split; [right; exact Hin | exact He].
Qed.



Lemma In_spawns file args tr :
  In (file, args) (spawns tr) <-> In (Spawn file args) tr.
Proof.
  induction tr as [| e tr IH]; [cbn; tauto |].
  destruct e as [m | m | f a |]; cbn [spawns In]; rewrite IH;
    split; intros H; try tauto.
  - destruct H as [H | H]; [discriminate H | tauto].
  - destruct H as [H | H]; [discriminate H | tauto].
  - destruct H as [[= -> ->] | H]; auto.
  - destruct H as [[= -> ->] | H]; auto.
  - destruct H as [H | H]; [discriminate H | tauto].
Qed.




Lemma processSingleFile_spawn_shape h b lang dir fs :
  Forall (fun e => forall file args,
              e = Spawn file args ->
              file = ffmpegPath h
              /\ args = engineArgs (pathsOf ".lrc" dir b) lang)
    (events (Index.processSingleFile h b lang dir fs)).
Proof.
  destruct (complete fs (pathsOf ".lrc" dir b)) eqn:Hc.
  - rewrite (processSingleFile_complete h b lang dir fs Hc). cbn [events].
    destruct (invokerRun_cases h (audioPath (pathsOf ".lrc" dir b))
                (imagePath (pathsOf ".lrc" dir b))
                (subtitlePath (pathsOf ".lrc" dir b))
                (outputPath (pathsOf ".lrc" dir b)) lang fs)
      as [(_ & Ev & _) | [(code & _ & _ & Ev & _) | (err & errno & _ & Ev & _)]];
      rewrite Ev;
      repeat (apply Forall_cons;
              [intros file args Heq; try discriminate Heq;
               injection Heq as <- <-; auto |]);
      apply Forall_nil.
  - rewrite (processSingleFile_incomplete h b lang dir fs Hc).
    apply Forall_cons; [intros file args Heq; discriminate Heq | apply Forall_nil].
Qed.

(** X6: whatever a run invokes is the engine, with the arguments of
    section 6 for one item of the run: the base name given in manual mode,
    a discovered base name in automatic mode.  The paths are those derived
    in the working directory and the language tag is the one of [argv]. *)
Theorem main_invokes_only_the_engine h argv fs file args :
  let pre := Index.ensureFfmpegIsAvailable h fs in
  In (file, args) (spawns (events (Index.main h argv fs))) ->
  file = ffmpegPath h
  /\ exists b,
      args = engineArgs (pathsOf ".lrc" (cwd h) b) (lang argv)
      /\ (if truthy (basename argv) then b = text (basename argv)
          else exists names,
                 readdir (after pre) (cwd h) = inr names
                 /\ In b (discover names)).
Proof.
  intros pre Hin. apply In_spawns in Hin.
  destruct (main_cases h argv fs)
    as (ready & _ & E & [(_ & Ev & _) | (_ & _ & Ev)]);
    fold pre in E, Ev; rewrite Ev in Hin.
  { rewrite forallb_forall in E. specialize (E _ Hin). discriminate E. }
  apply in_app_or in Hin. destruct Hin as [Hin | Hin].
  { rewrite forallb_forall in E. specialize (E _ Hin). discriminate E. }
  apply in_app_or in Hin. destruct Hin as [Hin | Hin].
  2:{ destruct (completion (chosenMode h argv (after pre)));
        cbn in Hin; intuition discriminate. }
  destruct (chosenMode_run h argv (after pre)) as (Eb & _ & _ & _).
  rewrite Eb in Hin. destruct (truthy (basename argv)) eqn:Ht.
  - destruct Hin as [Hin | Hin]; [discriminate Hin |].
    pose proof (processSingleFile_spawn_shape h (text (basename argv))
                  (lang argv) (cwd h) (after pre)) as F.
    rewrite Forall_forall in F. destruct (F _ Hin file args eq_refl) as (-> & ->).
    split; [reflexivity |]. exists (text (basename argv)). auto.
  - destruct Hin as [Hin | Hin]; [discriminate Hin |].
    destruct (readdir (after pre) (cwd h)) as [err | names] eqn:Hr.
    { rewrite (processDirectory_unreadable h (lang argv) (cwd h) (after pre)
                 err Hr) in Hin. destruct Hin. }
    rewrite (processDirectory_run h (lang argv) (cwd h) (after pre) names Hr)
      in Hin.
    destruct (discover names) as [| b0 bs] eqn:Ed.
    { destruct Hin as [Hin | []]. discriminate Hin. }
    pose proof (forOf_Forall
                  (fun b e => forall file args,
                       e = Spawn file args ->
                       file = ffmpegPath h
                       /\ args = engineArgs (pathsOf ".lrc" (cwd h) b) (lang argv))
                  (fun b => Index.processSingleFile h b (lang argv) (cwd h))
                  (b0 :: bs)
                  (fun b fs0 => processSingleFile_spawn_shape h b (lang argv)
                                  (cwd h) fs0)
                  (after pre)) as F.
    rewrite Forall_forall in F.
    destruct (F _ Hin) as (b & Hb & Hs).
    destruct (Hs file args eq_refl) as (-> & ->).
    split; [reflexivity |]. exists b. split; [reflexivity |].
    exists names. split; [reflexivity | rewrite Ed; exact Hb].
Qed.

Lemma main_invokes_only_the_engine_witness :
  exists b,
    [ "-i"; "/music/a.flac"; "-i"; "/music/a.jpg"; "-i"; "/music/a.lrc";
      "-c:a"; "alac"; "-c:v"; "copy"; "-c:s"; "mov_text";
      "-map"; "0:a"; "-map"; "1:v"; "-map"; "2:s";
      "-metadata:s:s:0"; "language=eng";
      "-disposition:v"; "attached_pic"; "-y"; "/music/a.m4a" ]
    = engineArgs (pathsOf ".lrc" "/music" b) "eng"
    /\ In b (discover (map fst strayAudio)).
Proof.
  destruct (main_invokes_only_the_engine hostOK (mkArgv None "eng")
              (installed strayAudio) "/opt/ffmpeg"
              [ "-i"; "/music/a.flac"; "-i"; "/music/a.jpg"; "-i"; "/music/a.lrc";
                "-c:a"; "alac"; "-c:v"; "copy"; "-c:s"; "mov_text";
                "-map"; "0:a"; "-map"; "1:v"; "-map"; "2:s";
                "-metadata:s:s:0"; "language=eng";
                "-disposition:v"; "attached_pic"; "-y"; "/music/a.m4a" ]
              (or_introl eq_refl)) as (_ & b & A & names & Hr & Hb).
  exists b. split; [exact A |].
  vm_compute in Hr. injection Hr as <-. exact Hb.
Defined.

(** ** Batches that cannot fail *)

Lemma forOf_all_return (body : string -> M unit) bs fs :
  (forall b, after (body b fs) = fs /\ completion (body b fs) = Normal tt) ->
  let r := forOf bs body fs in
  events r = List.concat (map (fun b => events (body b fs)) bs)
  /\ after r = fs
  /\ completion r = Normal tt.
Proof.
  intros Hbody. induction bs as [| b bs IH]; [cbn; auto |].
  cbv zeta. rewrite forOf_cons. cbv zeta.
  destruct (Hbody b) as (Ha & Hc). rewrite Hc, Ha.
  cbv zeta in IH. destruct IH as (E & A & C).
  cbn [events after completion map List.concat]. rewrite E. auto.
Qed.

Lemma results_concat (f : string -> list Event) bs :
  results (List.concat (map f bs)) = List.concat (map (fun b => results (f b)) bs).
Proof.
  induction bs as [| b bs IH]; [reflexivity |].
  cbn [map List.concat]. rewrite results_app, IH. reflexivity.
Qed.

Lemma spawns_concat (f : string -> list Event) bs :
  spawns (List.concat (map f bs)) = List.concat (map (fun b => spawns (f b)) bs).
Proof.
  induction bs as [| b bs IH]; [reflexivity |].
  cbn [map List.concat]. rewrite spawns_app, IH. reflexivity.
Qed.

Lemma concat_singletons {A B : Type} (f : A -> B) l :
  List.concat (map (fun x => [f x]) l) = map f l.
Proof. induction l as [| x l IH]; cbn; [reflexivity | now rewrite IH]. Qed.

Lemma concat_optional {A B : Type} (keep : A -> bool) (f : A -> B) l :
  List.concat (map (fun x => if keep x then [f x] else []) l) = map f (filter keep l).
Proof.
  induction l as [| x l IH]; cbn; [reflexivity |].
  rewrite IH. destruct (keep x); reflexivity.
Qed.

(** The item processor with an engine that always exits 0 and leaves the
    files alone. *)
Lemma processSingleFile_reliable h b lang dir fs :
  (forall fs' file args, child h fs' file args = (Close (Some 0%Z), fs')) ->
  let p := pathsOf ".lrc" dir b in
  Index.processSingleFile h b lang dir fs
  = if complete fs p then
      mkRun [ConsoleLog (MsgProcessing (Path.basename (audioPath p) None));
             Spawn (ffmpegPath h) (engineArgs p lang);
             ConsoleLog (MsgCreated (Path.basename (outputPath p) None))]
        fs (Normal tt)
    else mkRun [ConsoleLog (MsgSkipping b)] fs (Normal tt).
Proof.
  intros Hchild p. destruct (complete fs p) eqn:Hc.
  - rewrite (processSingleFile_complete h b lang dir fs Hc). fold p.
    unfold invokerRun. rewrite Hchild. reflexivity.
  - apply (processSingleFile_incomplete h b lang dir fs Hc).
Qed.

(** X7: with an engine that always exits 0 and leaves the files alone, the
    batch over a readable directory settles every candidate, in listing
    order: the outcomes are the candidates' own (Converted when complete,
    Skipped when not), the engine invocations are those of the complete
    candidates, the batch returns, and the files are as before. *)
Theorem processDirectory_with_reliable_engine h lang dir fs names :
  (forall fs' file args, child h fs' file args = (Close (Some 0%Z), fs')) ->
  readdir fs dir = inr names ->
  let r := Index.processDirectory h lang dir fs in
  results (events r) = map (settled fs dir) (discover names)
  /\ spawns (events r)
     = map (fun b => (ffmpegPath h, engineArgs (pathsOf ".lrc" dir b) lang))
         (filter (fun b => complete fs (pathsOf ".lrc" dir b)) (discover names))
  /\ completion r = Normal tt
  /\ after r = fs.
Proof.
  intros Hchild Hr r. subst r.
  rewrite (processDirectory_run h lang dir fs names Hr).
  destruct (discover names) as [| b0 bs] eqn:Ed; [cbn; auto |].
  rewrite <- Ed. clear Ed b0 bs.
  destruct (forOf_all_return (fun b => Index.processSingleFile h b lang dir)
              (discover names) fs) as (E & A & C).
  { intros b. rewrite (processSingleFile_reliable h b lang dir fs Hchild).
    destruct (complete fs (pathsOf ".lrc" dir b)); auto. }
  rewrite E, A, C, results_concat, spawns_concat.
  split; [| split; [| auto]].
  - rewrite <- (concat_singletons (settled fs dir)). f_equal.
    apply map_ext. intros b.
    rewrite (processSingleFile_reliable h b lang dir fs Hchild).
    unfold settled. destruct (complete fs (pathsOf ".lrc" dir b)); reflexivity.
  - rewrite <- (concat_optional (fun b => complete fs (pathsOf ".lrc" dir b))
                 (fun b => (ffmpegPath h, engineArgs (pathsOf ".lrc" dir b) lang))).
    f_equal. apply map_ext. intros b.
    rewrite (processSingleFile_reliable h b lang dir fs Hchild).
    destruct (complete fs (pathsOf ".lrc" dir b)); reflexivity.
Qed.

Lemma processDirectory_with_reliable_engine_witness :
  let r := Index.processDirectory hostOK "chi" "/music" (installed songs) in
  results (events r) = [Converted "a.m4a"; Converted "b.m4a"]
  /\ List.length (spawns (events r)) = 2.
Proof.
  destruct (processDirectory_with_reliable_engine hostOK "chi" "/music"
              (installed songs) (map fst songs)
              (fun fs' file args => eq_refl) eq_refl) as (R & S & _).
  split; [rewrite R; reflexivity | rewrite S; reflexivity].
Defined.

(** X8: when no candidate of a readable directory is complete, every
    candidate is skipped, in listing order, whatever the engine would do:
    nothing is invoked, the batch returns, and the files are as before. *)
Theorem processDirectory_all_incomplete h lang dir fs names :
  readdir fs dir = inr names ->
  (forall b, In b (discover names) -> complete fs (pathsOf ".lrc" dir b) = false) ->
  let r := Index.processDirectory h lang dir fs in
  results (events r) = map Skipped (discover names)
  /\ (discover names <> [] ->
      events r = map (fun b => ConsoleLog (MsgSkipping b)) (discover names))
  /\ spawns (events r) = []
  /\ completion r = Normal tt
  /\ after r = fs.
Proof.
  intros Hr Hinc r. subst r.
  rewrite (processDirectory_run h lang dir fs names Hr).
  destruct (discover names) as [| b0 bs] eqn:Ed.
  { cbn. repeat split; auto. congruence. }
  rewrite <- Ed in *. clear Ed b0 bs.
  induction (discover names) as [| b bs IH].
  { cbn. repeat split; auto. }
  rewrite forOf_cons. cbv zeta.
  rewrite (processSingleFile_incomplete h b lang dir fs
             (Hinc b (or_introl eq_refl))).
  cbn [completion after events].
  destruct IH as (R & E & S & C & A); [intros b' Hb'; apply Hinc; right; exact Hb' |].
  cbn [app results resultOf spawns map]. rewrite R, S, C, A.
  repeat split; auto.
  intros _. destruct bs as [| b1 bs']; [reflexivity |].
  rewrite E; [reflexivity | discriminate].
Qed.

Lemma processDirectory_all_incomplete_witness :
  let r := Index.processDirectory hostKO "chi" "/music"
             (installed [("a.flac", RegularFile); ("b.FLAC", RegularFile)]) in
  results (events r) = [Skipped "a"; Skipped "b"] /\ spawns (events r) = [].
Proof.
  destruct (processDirectory_all_incomplete hostKO "chi" "/music"
              (installed [("a.flac", RegularFile); ("b.FLAC", RegularFile)])
              ["a.flac"; "b.FLAC"] eq_refl) as (R & _ & S & _).
  - intros b [<- | [<- | []]]; reflexivity.
  - split; [exact R | exact S].
Defined.

(** ** Paths and names *)

Lemma lastChar_append (a b : string) :
  b <> "" -> lastChar (a ++ b) = lastChar b.
Proof.
  intros Hb. induction a as [| c a IH]; [reflexivity |].
  cbn [append lastChar]. destruct (a ++ b) eqn:E; [| exact IH].
  destruct a; cbn in E; [congruence | discriminate E].
Qed.

(** X9: the output path of an item is never an input path, of the same
    item or of any other, in either variant: an output ends in [a], an
    input in [c] or [g].  What the engine writes ([-y] overwrites without
    asking) is never a file the program reads; the two variants write to
    the same output path. *)
Theorem output_path_is_no_input_path dir b dir' b' :
  let out := outputPath (pathsOf ".lrc" dir b) in
  let p1 := pathsOf ".lrc" dir' b' in
  let p2 := pathsOf ".lyc" dir' b' in
  out <> audioPath p1
  /\ out <> imagePath p1
  /\ out <> subtitlePath p1
  /\ out <> subtitlePath p2
  /\ outputPath (pathsOf ".lyc" dir b) = out.
Proof.
  intros out p1 p2.
  assert (Ho : lastChar out = Some "a"%char).
  { unfold out, pathsOf. cbn [outputPath].
    rewrite (join_with_ext dir b ".m4a" eq_refl), lastChar_append;
      [reflexivity | discriminate]. }
  assert (Hi : forall ext, plainExt ext = true -> ext <> "" ->
                           lastChar ext <> Some "a"%char ->
                           out <> Path.join dir' (b' ++ ext)).
  { intros ext He Hne Hl E. rewrite E, (join_with_ext dir' b' ext He) in Ho.
    rewrite lastChar_append in Ho by exact Hne. exact (Hl Ho). }
  repeat split; try (apply Hi; [reflexivity | discriminate | discriminate]).
Qed.

Lemma lowerChar_dot c : Str.lowerChar c = "."%char -> c = "."%char.
Proof.
  destruct c as [[] [] [] [] [] [] [] []]; intros H; vm_compute in H;
    try discriminate H; reflexivity.
Qed.

Lemma lowerChar_plain c x :
  Str.lowerChar c = x -> Str.isDot x = false -> Str.isSlash x = false ->
  Str.isDot c = false /\ Str.isSlash c = false.
Proof.
  intros H Hd Hs. split.
  - destruct (Str.isDot c) eqn:E; [| reflexivity].
    apply Ascii.eqb_eq in E. subst c. subst x. discriminate Hd.
  - destruct (Str.isSlash c) eqn:E; [| reflexivity].
    apply Ascii.eqb_eq in E. subst c. subst x. discriminate Hs.
Qed.

(** An extension that is [.flac] in some letter case: a ['.'] and four
    characters that are neither ['.'] nor ['/']. *)
Lemma flac_extension_shape e :
  Str.toLowerCase e = ".flac" ->
  plainExt e = true /\ noSlash e = true /\ Str.lastDot e = Some 0
  /\ length e = 5.
Proof.
  destruct e as [| d [| c1 [| c2 [| c3 [| c4 [| c5 e]]]]]]; cbn;
    try discriminate.
  intros [= Hd H1 H2 H3 H4].
  apply lowerChar_dot in Hd. subst d.
  destruct (lowerChar_plain c1 _ H1 eq_refl eq_refl) as (D1 & S1).
  destruct (lowerChar_plain c2 _ H2 eq_refl eq_refl) as (D2 & S2).
  destruct (lowerChar_plain c3 _ H3 eq_refl eq_refl) as (D3 & S3).
  destruct (lowerChar_plain c4 _ H4 eq_refl eq_refl) as (D4 & S4).
  cbn. rewrite D1, D2, D3, D4, S1, S2, S3, S4. cbn. auto.
Qed.

Lemma extname_of_flac f :
  noSlash f = true -> Index.isFlac f = true ->
  Str.toLowerCase (Path.extname f) = ".flac".
Proof. intros _ H. apply String.eqb_eq. exact H. Qed.

(** X10: discovery matches the extension in any letter case, but the item
    processor looks for the audio file under the lower-case extension.
    For a discovered entry the audio path that is checked and handed to
    the engine is the path of the entry itself iff the entry is spelled
    with [.flac] exactly; an entry such as [b.FLAC] is looked for as
    [b.flac]. *)
Theorem audio_path_is_the_entry_iff_lowercase dir f :
  noSlash f = true ->
  Index.isFlac f = true ->
  let b := Path.basename f (Some (Path.extname f)) in
  audioPath (pathsOf ".lrc" dir b) = Path.join dir f
  <-> Path.extname f = ".flac".
Proof.
  intros Hn Hf b.
  destruct (isFlac_stem f Hn Hf) as (Ef & Eb & _).
  destruct (flac_extension_shape _ (extname_of_flac f Hn Hf)) as (Hp & _).
  subst b. rewrite Eb. unfold pathsOf. cbn [audioPath].
  rewrite (join_with_ext dir (stem f) ".flac" eq_refl).
  assert (Ej : Path.join dir f = joinedStem dir (stem f) ++ Path.extname f).
  { rewrite Ef at 1. apply join_with_ext. exact Hp. }
  rewrite Ej. split.
  - intros E. apply append_inv_head in E. symmetry. exact E.
  - intros E. rewrite E. reflexivity.
Qed.

Lemma audio_path_is_the_entry_iff_lowercase_witness :
  audioPath (pathsOf ".lrc" "/music"
               (Path.basename "b.FLAC" (Some (Path.extname "b.FLAC"))))
  <> Path.join "/music" "b.FLAC".
Proof.
  intros E.
  apply (audio_path_is_the_entry_iff_lowercase "/music" "b.FLAC" eq_refl eq_refl)
    in E.
  discriminate E.
Defined.

Lemma noSlash_append a b :
  noSlash (a ++ b) = noSlash a && noSlash b.
Proof.
  induction a as [| c a IH]; [reflexivity |].
  cbn. rewrite IH, andb_assoc. reflexivity.
Qed.

Lemma lastDot_append st e :
  Str.lastDot e = Some 0 -> Str.lastDot (st ++ e) = Some (length st).
Proof.
  intros He. induction st as [| c st IH]; [exact He |].
  cbn. rewrite IH. reflexivity.
Qed.

Lemma drop_append (a b : string) : Str.drop (length a) (a ++ b) = b.
Proof. induction a as [| c a IH]; [reflexivity | exact IH]. Qed.

Lemma take_append (a b : string) : Str.take (length a) (a ++ b) = a.
Proof.
  induction a as [| c a IH]; [destruct b; reflexivity |].
  cbn. rewrite IH. reflexivity.
Qed.

Lemma extname_stem_ext st e :
  st <> "" -> noSlash st = true -> Str.toLowerCase e = ".flac" ->
  Path.extname (st ++ e) = e.
Proof.
  intros Hst Hn He.
  destruct (flac_extension_shape e He) as (_ & Hne & Hd & Hl).
  unfold Path.extname.
  rewrite lastPortion_noSlash by (rewrite noSlash_append, Hn, Hne; reflexivity).
  rewrite (lastDot_append st e Hd).
  destruct (length st) as [| n] eqn:El; [destruct st; [congruence | discriminate] |].
  assert (Hdd : (st ++ e =? "..") = false).
  { apply String.eqb_neq. intros E. apply (f_equal length) in E.
    rewrite length_append, Hl in E. cbn in E. lia. }
  rewrite Hdd, <- El. unfold Str.slice. rewrite drop_append.
  apply take_all. rewrite length_append. lia.
Qed.

(** X11: discovery finds every entry that is a non-empty stem followed by
    [.flac] in any letter case, under the stem as base name; an entry that
    is nothing but such an extension (a hidden file [.flac]) is no
    candidate. *)
Theorem stem_with_flac_extension_is_discovered st e names :
  noSlash st = true ->
  Str.toLowerCase e = ".flac" ->
  (st <> "" -> In (st ++ e) names -> In st (discover names))
  /\ Index.isFlac e = false
  /\ discover [e] = [].
Proof.
  intros Hn He.
  destruct (flac_extension_shape e He) as (_ & Hne & Hd & Hl).
  assert (Hbare : Index.isFlac e = false).
  { unfold Index.isFlac, Path.extname.
    rewrite (lastPortion_noSlash e Hne), Hd. reflexivity. }
  split; [| split; [exact Hbare | unfold discover; cbn; rewrite Hbare; reflexivity]].
  intros Hst Hin.
  pose proof (extname_stem_ext st e Hst Hn He) as Ex.
  assert (Hns : noSlash (st ++ e) = true)
    by (rewrite noSlash_append, Hn, Hne; reflexivity).
  assert (Hf : Index.isFlac (st ++ e) = true)
    by (unfold Index.isFlac; rewrite Ex, He; reflexivity).
  destruct (isFlac_stem (st ++ e) Hns Hf) as (_ & Eb & _).
  unfold discover. apply in_map_iff. exists (st ++ e). split.
  - rewrite Eb. unfold stem. rewrite Ex, length_append.
    replace (length st + length e - length e) with (length st) by lia.
    apply take_append.
  - apply filter_In. auto.
Qed.

Lemma stem_with_flac_extension_is_discovered_witness :
  In "song" (discover ["cover.jpg"; "song.FlaC"; ".flac"])
  /\ discover [".FLAC"] = [].
Proof.
  destruct (stem_with_flac_extension_is_discovered "song" ".FlaC"
              ["cover.jpg"; "song.FlaC"; ".flac"] eq_refl eq_refl) as (H & _).
  destruct (stem_with_flac_extension_is_discovered "" ".FLAC" [] eq_refl eq_refl)
    as (_ & _ & H').
  split; [apply H; [discriminate | right; left; reflexivity] | exact H'].
Defined.

(** ** The other variant *)

(** The item processor of [part_000], by the completeness of the item. *)
Lemma variant_processSingleFile_run h b lang dir fs :
  let p := pathsOf ".lyc" dir b in
  Part000.processSingleFile h b lang dir fs
  = if complete fs p then
      let r := invokerRun h (audioPath p) (imagePath p) (subtitlePath p)
                 (outputPath p) lang fs in
      mkRun (ConsoleLog (MsgProcessing (Path.basename (audioPath p) None))
               :: events r) (after r) (completion r)
    else mkRun [ConsoleLog (MsgSkipping b)] fs (Normal tt).
Proof.
  intros p. rewrite processSingleFile_variant.
  pose proof (processItemWith_run ".lyc" (Part000.runFfmpeg h) b lang dir fs) as E.
  cbv zeta in E. fold p in E. rewrite runFfmpeg_variant in E. exact E.
Qed.

Lemma variant_outcomes h b lang dir fs :
  let r := Part000.processSingleFile h b lang dir fs in
  itemsStarted (events r) = 1
  /\ List.length (spawns (events r)) <= 1
  /\ itemsStarted (events r)
     = List.length (spawns (events r)) + skips (results (events r))
  /\ forallb batchEvent (events r) = true
  /\ ((completion r = Normal tt
       /\ exists x, results (events r) = [x] /\ isFailed x = false)
      \/ (exists e, completion r = Thrown e
                    /\ failurePrints e (results (events r)))).
Proof.
  apply (item_outcomes h (pathsOf ".lyc" dir b) b lang fs).
  apply variant_processSingleFile_run.
Qed.

Lemma variant_step h lang dir :
  forall b fs,
    itemsStarted (events (Part000.processSingleFile h b lang dir fs)) = 1
    /\ ((completion (Part000.processSingleFile h b lang dir fs) = Normal tt
         /\ exists x, results (events (Part000.processSingleFile h b lang dir fs))
                      = [x] /\ isFailed x = false)
        \/ (exists e, completion (Part000.processSingleFile h b lang dir fs)
                      = Thrown e
                      /\ failurePrints e
                           (results (events
                              (Part000.processSingleFile h b lang dir fs))))).
Proof.
  intros b fs.
  destruct (variant_outcomes h b lang dir fs) as (I & _ & _ & _ & H). auto.
Qed.

Lemma variant_processDirectory_run h lang dir fs :
  Part000.processDirectory h lang dir fs
  = match readdir fs dir with
    | inl err => mkRun [] fs (Thrown err)
    | inr names =>
        match discover names with
        | [] => mkRun [ConsoleLog MsgNoFlacFiles] fs (Normal tt)
        | _ :: _ =>
            forOf (discover names)
              (fun b => Part000.processSingleFile h b lang dir) fs
        end
    end.
Proof.
  unfold Part000.processDirectory, bind, readdirSync.
  destruct (readdir fs dir) as [err | names]; [reflexivity |].
  cbn [completion after events]. unfold discover.
  change Part000.isFlac with Index.isFlac.
  destruct (filter Index.isFlac names) as [| f fl] eqn:Ef; [reflexivity |].
  cbn [List.length Nat.eqb app]. rewrite forOf_map.
  destruct (forOf (f :: fl) _ fs); reflexivity.
Qed.



Lemma variant_forOf_events h lang dir bs :
  forall fs,
    forallb batchEvent
      (events (forOf bs (fun b => Part000.processSingleFile h b lang dir) fs))
    = true.
Proof.
  induction bs as [| b bs IH]; intros fs; [reflexivity |].
  rewrite forOf_cons. cbv zeta.
  destruct (variant_outcomes h b lang dir fs) as (_ & _ & _ & Hb & _).
  destruct (completion (Part000.processSingleFile h b lang dir fs));
    cbn [events]; auto.
  rewrite forallb_app, Hb, IH. reflexivity.
Qed.

Lemma variant_processDirectory_ends h lang dir fs :
  let r := Part000.processDirectory h lang dir fs in
  forallb batchEvent (events r) = true
  /\ (completion r = Normal tt \/ exists e, completion r = Thrown e).
Proof.
  intros r. subst r. rewrite variant_processDirectory_run.
  destruct (readdir fs dir) as [err | names]; [cbn; eauto |].
  destruct (discover names) as [| b bs] eqn:Ed; [cbn; auto |].
  split; [apply variant_forOf_events |].
  destruct (forOf_until_failure
              (fun b => Part000.processSingleFile h b lang dir) (b :: bs)
              (variant_step h lang dir) fs)
    as (_ & [(C & _) | (e & _ & _ & C & _)]); eauto.
Qed.

Lemma installs_app tr1 tr2 :
  installs (tr1 ++ tr2)%list = installs tr1 + installs tr2.
Proof. unfold installs. rewrite filter_app, length_app. reflexivity. Qed.

Lemma batch_installs_nothing tr :
  forallb batchEvent tr = true -> installs tr = 0.
Proof.
  induction tr as [| e tr IH]; [reflexivity |]. cbn [forallb].
  intros H. apply andb_true_iff in H. destruct H as (He & Ht).
  specialize (IH Ht). unfold installs in *.
  destruct e as [m | m | f a |]; try discriminate He; exact IH.
Qed.

(** X13: [part_000] has no pre-flight check.  Its [main] announces the
    mode as the first thing, never tries the install script and never
    calls [process.exit]: it returns or its promise is rejected.  [Done]
    is printed iff it returns.  In manual mode with the three inputs in
    place the engine is invoked whether or not anything exists at its
    path. *)
Theorem variant_main_has_no_preflight h argv fs :
  let r := Part000.main h argv fs in
  (exists rest,
      events r
      = (if truthy (basename argv)
         then ConsoleLog (MsgManualMode (text (basename argv)))
         else ConsoleLog (MsgAutomaticMode (cwd h))) :: rest)
  /\ installs (events r) = 0
  /\ (completion r = Normal tt \/ exists e, completion r = Thrown e)
  /\ (In (ConsoleLog MsgDone) (events r) <-> completion r = Normal tt)
  /\ (truthy (basename argv) = true ->
      complete fs (pathsOf ".lyc" (cwd h) (text (basename argv))) = true ->
      spawns (events r)
      = [(ffmpegPath h,
          engineArgs (pathsOf ".lyc" (cwd h) (text (basename argv))) (lang argv))]).
Proof.
  intros r.
  set (inner := if truthy (basename argv)
                then Part000.processSingleFile h (text (basename argv))
                       (lang argv) (cwd h) fs
                else Part000.processDirectory h (lang argv) (cwd h) fs).
  set (announce := if truthy (basename argv)
                   then ConsoleLog (MsgManualMode (text (basename argv)))
                   else ConsoleLog (MsgAutomaticMode (cwd h))).
  assert (Hr : events r
               = (announce :: events inner
                    ++ match completion inner with
                       | Normal _ => [ConsoleLog MsgDone]
                       | _ => []
                       end)%list
               /\ completion r = completion inner).
  { subst r inner announce. unfold Part000.main.
    destruct (truthy (basename argv));
      unfold bind, console_log, emit; cbn [completion after events app];
      match goal with
      | |- context [completion ?x] => destruct (completion x) as [[] | e | c]
      end; cbn [completion after events app]; rewrite ?app_nil_r; auto. }
  destruct Hr as (Ev & C).
  assert (Hin : forallb batchEvent (events inner) = true
                /\ (completion inner = Normal tt
                    \/ exists e, completion inner = Thrown e)).
  { subst inner. destruct (truthy (basename argv)).
    - destruct (variant_outcomes h (text (basename argv)) (lang argv) (cwd h) fs)
        as (_ & _ & _ & B & [(Cx & _) | (e & Cx & _)]); eauto.
    - apply variant_processDirectory_ends. }
  destruct Hin as (B & Hc).
  assert (Hann : installs [announce] = 0 /\ announce <> ConsoleLog MsgDone)
    by (subst announce; destruct (truthy (basename argv)); split;
        try reflexivity; discriminate).
  destruct Hann as (Ia & Na).
  assert (Hnd : ~ In (ConsoleLog MsgDone) (events inner)).
  { intros H. rewrite forallb_forall in B. specialize (B _ H). discriminate B. }
  split; [eexists; exact Ev |]. split.
  { rewrite Ev.
    change (announce :: events inner
              ++ match completion inner with
                 | Normal _ => [ConsoleLog MsgDone]
                 | _ => []
                 end)%list
      with ([announce] ++ events inner
              ++ match completion inner with
                 | Normal _ => [ConsoleLog MsgDone]
                 | _ => []
                 end)%list.
    rewrite !installs_app, Ia, (batch_installs_nothing _ B).
    destruct (completion inner); reflexivity. }
  split; [rewrite C; exact Hc |]. split.
  { rewrite Ev, C.
    destruct Hc as [Hc | (e & Hc)]; rewrite Hc; split.
    - intros _. reflexivity.
    - intros _. right. apply in_or_app. right. left. reflexivity.
    - rewrite app_nil_r. intros [H | H]; [destruct (Na H) | destruct (Hnd H)].
    - intros H. discriminate H. }
  intros Ht Hcomp. rewrite Ev. subst inner announce. rewrite Ht.
  rewrite variant_processSingleFile_run. cbv zeta. rewrite Hcomp.
  cbn [events completion spawns].
  rewrite spawns_app.
  destruct (invokerRun_cases h
              (audioPath (pathsOf ".lyc" (cwd h) (text (basename argv))))
              (imagePath (pathsOf ".lyc" (cwd h) (text (basename argv))))
              (subtitlePath (pathsOf ".lyc" (cwd h) (text (basename argv))))
              (outputPath (pathsOf ".lyc" (cwd h) (text (basename argv))))
              (lang argv) fs)
    as [(_ & E1 & C1) | [(code & _ & _ & E1 & C1) | (err & errno & _ & E1 & C1)]];
    rewrite E1, C1; reflexivity.
Qed.

Lemma variant_main_has_no_preflight_witness :
  let fs := album "/music" [("a.flac", RegularFile); ("a.jpg", RegularFile);
                            ("a.lyc", RegularFile)] [] in
  let host := machine "/opt/ffmpeg" "/music"
                (fun _ => SpawnError (SystemError "ENOENT") 2) in
  present fs "/opt/ffmpeg" = false
  /\ List.length (spawns (events (Part000.main host (mkArgv (Some "a") "chi") fs)))
     = 1.
Proof.
  intros fs host. split; [reflexivity |].
  destruct (variant_main_has_no_preflight host (mkArgv (Some "a") "chi") fs)
    as (_ & _ & _ & _ & H).
  rewrite (H eq_refl eq_refl). reflexivity.
Defined.

(** ** What a rejection says *)



(** ** What the item processor does not look at *)

(** X15: the item processor asks the file system for the three inputs and
    nothing else.  In two file systems that agree on the three input paths,
    with an engine that ends the same way in both, it prints the same,
    invokes the same and completes the same: whether the output file is
    already there, or anything else, makes no difference. *)
Theorem processSingleFile_looks_at_inputs_only h b lang dir fs1 fs2 :
  let p := pathsOf ".lrc" dir b in
  present fs1 (audioPath p) = present fs2 (audioPath p) ->
  present fs1 (imagePath p) = present fs2 (imagePath p) ->
  present fs1 (subtitlePath p) = present fs2 (subtitlePath p) ->
  fst (child h fs1 (ffmpegPath h) (engineArgs p lang))
  = fst (child h fs2 (ffmpegPath h) (engineArgs p lang)) ->
  events (Index.processSingleFile h b lang dir fs1)
  = events (Index.processSingleFile h b lang dir fs2)
  /\ completion (Index.processSingleFile h b lang dir fs1)
     = completion (Index.processSingleFile h b lang dir fs2).
Proof.
  intros p Ha Hi Hs He.
  assert (Hc : complete fs1 p = complete fs2 p)
    by (unfold complete; rewrite Ha, Hi, Hs; reflexivity).
  destruct (complete fs2 p) eqn:H2.
  - rewrite (processSingleFile_complete h b lang dir fs1 Hc),
      (processSingleFile_complete h b lang dir fs2 H2).
    fold p. cbn [events completion]. unfold invokerRun.
    change (Index.args (audioPath p) (imagePath p) (subtitlePath p)
              (outputPath p) lang) with (engineArgs p lang).
    rewrite He.
    destruct (fst (child h fs2 (ffmpegPath h) (engineArgs p lang)))
      as [[[| q | q] |] | err]; split; reflexivity.
  - rewrite (processSingleFile_incomplete h b lang dir fs1 Hc),
      (processSingleFile_incomplete h b lang dir fs2 H2).
    split; reflexivity.
Qed.

Lemma processSingleFile_looks_at_inputs_only_witness :
  events (Index.processSingleFile hostOK "a" "chi" "/music" (installed strayAudio))
  = events (Index.processSingleFile hostOK "a" "chi" "/music"
              (installed (("a.m4a", RegularFile) :: strayAudio))).
Proof.
  apply (processSingleFile_looks_at_inputs_only hostOK "a" "chi" "/music"
           (installed strayAudio)
           (installed (("a.m4a", RegularFile) :: strayAudio))
           eq_refl eq_refl eq_refl eq_refl).
Defined.
